(** * Cube Rush: the reaction-game loop of [src/Cube Rush/main.js]

    A shallow embedding of the game state and of the three callbacks that
    mutate it: the countdown timer ([timerInterval]), the spawner
    ([activateRandomCube], fired from a second [setInterval]) and the click
    handler ([onClick], with [deactivateCube]).

    Modelling choices.
    - JS numbers holding counters ([score], [timeLeft], [userData.id]) are
      integers far below 2^53 in any real session and are modelled as [Z].
    - A cube is a [THREE.Mesh] object; the array [cubes] is filled once and
      never changes afterwards, so a reference to a cube is modelled as its
      position in [cubes] (a [nat]) and the state field [cubes] is the store
      that maps each reference to its mutable [userData].  The material and
      scale writes of the source are presentation only and are left out, as
      is [updateUI], which writes nothing but DOM text; the overlay it
      writes is threaded beside the game state in [stepUI].
    - [activeCubes] is a JS [Set] of cube references, of which the code uses
      only [size], [has], [add] and [delete]: a [gset nat].
    - [Math.random()] is passed in as the rational value of the binary64
      number it returns, and the product with [available.length] is
      rounded to binary64 (to nearest, ties to even) before [Math.floor],
      as the code computes it; so is every step of the pointer
      conversion.  Layout coordinates of the creation loop are small
      multiples of one half and are kept exact.
    - The raycaster is a black box: [onClick] receives the list
      [intersects] of the cubes it reports, nearest first.
    - A JS statement that would throw (reading [userData] of [undefined])
      aborts the callback before any write, so it leaves the state as it
      is. *)

From Stdlib Require Import ZArith QArith Qround Qpower Lia Lqa.
From Stdlib Require Import DecimalString DecimalZ.
From stdpp Require Import base gmap sets list strings.

Module CubeRush.

(** ** Data *)

(** [cube.userData = { id, isActive }] *)
Record userData := { id : Z; isActive : bool }.

Record state := {
  score : Z;                   (* let score = 0 *)
  timeLeft : Z;                (* let timeLeft = 30 *)
  gameOver : bool;             (* let gameOver = false *)
  timerInterval : bool;        (* the countdown schedule: true until clearInterval *)
  cubes : list userData;       (* const cubes = [], one userData per mesh *)
  activeCubes : gset nat       (* const activeCubes = new Set() *)
}.

Definition rows : nat := 4.
Definition cols : nat := 6.
Definition maxActive : nat := 3.

(** The body of the inner creation loop: [cube.userData = { id: idCounter++,
    isActive: false }; cubes.push(cube)].  The loop state is
    [(idCounter, cubes)]. *)
Definition pushCube (st : Z * list userData) : Z * list userData :=
  (fst st + 1, snd st ++ [ {| id := fst st; isActive := false |} ])%Z.

(** [for (i < rows) for (j < cols) { ... }] starting from [idCounter = 1]. *)
Definition createCubes : Z * list userData :=
  foldl (fun st _ => foldl (fun st' _ => pushCube st') st (seq 0 cols))
        (1%Z, []) (seq 0 rows).

Definition initial : state :=
  {| score := 0; timeLeft := 30; gameOver := false; timerInterval := true;
     cubes := snd createCubes; activeCubes := ∅ |}.

(** ** Countdown timer *)

(** The callback of [timerInterval = setInterval(..., 1000)]. *)
Definition timerCallback (s : state) : state :=
  if gameOver s then s
  else
    let t := (timeLeft s - 1)%Z in
    if (t <=? 0)%Z then
      {| score := score s; timeLeft := 0; gameOver := true;
         timerInterval := false;
         cubes := cubes s; activeCubes := activeCubes s |}
    else
      {| score := score s; timeLeft := t; gameOver := gameOver s;
         timerInterval := timerInterval s;
         cubes := cubes s; activeCubes := activeCubes s |}.

(** What the host does each second: the callback runs only while the
    interval is still registered. *)
Definition hostCountdown (s : state) : state :=
  if timerInterval s then timerCallback s else s.

(** ** Binary64 numbers

    JS numbers are IEEE 754 binary64.  A finite one is a rational
    [m * 2^p] with [|m| < 2^53] and [p >= -1074]; an arithmetic operation
    returns the exact result rounded to the nearest such number, ties going
    to the even significand.  Overflow to infinity is not modelled: no
    quantity here comes near 2^1024. *)

Definition pow2 (e : Z) : Q := (2 ^ e)%Q.

(** The nearest integer, ties to even. *)
Definition roundNearestEven (q : Q) : Z :=
  let f := Qfloor q in
  match (q - inject_Z f ?= 1 # 2)%Q with
  | Lt => f
  | Gt => (f + 1)%Z
  | Eq => if Z.even f then f else (f + 1)%Z
  end.

(** For [x > 0], the exponent [e] with [2^e <= x < 2^(e+1)]. *)
Definition binade (x : Q) : Z :=
  let e0 := (Z.log2 (Qnum x) - Z.log2 (Zpos (Qden x)))%Z in
  if Qle_bool (pow2 e0) x then e0 else (e0 - 1)%Z.

(** The exponent of the spacing of binary64 numbers around [x > 0]: 52
    below the binade, and never below that of the subnormal range. *)
Definition ulpExponent (x : Q) : Z := (Z.max (binade x) (-1022) - 52)%Z.

Definition roundPositive (x : Q) : Q :=
  (inject_Z (roundNearestEven (x / pow2 (ulpExponent x)))
   * pow2 (ulpExponent x))%Q.

(** The binary64 number an operation with exact result [x] returns. *)
Definition roundBinary64 (x : Q) : Q :=
  match (x ?= 0)%Q with
  | Eq => 0
  | Gt => roundPositive x
  | Lt => (- roundPositive (- x))%Q
  end.

(** [r] is the value of a binary64 number. *)
Definition isBinary64 (r : Q) : Prop := (roundBinary64 r == r)%Q.

(** ** Spawner *)

Definition setIsActive (b : bool) (u : userData) : userData :=
  {| id := id u; isActive := b |}.

(** [cubes.filter(c => !activeCubes.has(c))] *)
Definition available (s : state) : list nat :=
  filter (fun c => c ∉ activeCubes s) (seq 0 (length (cubes s))).

(** [Math.floor(Math.random() * n)] for [Math.random() = r]: the product
    is a binary64 multiplication. *)
Definition randomIndex (r : Q) (n : nat) : Z :=
  Qfloor (roundBinary64 (r * inject_Z (Z.of_nat n))).

Definition activateRandomCube (r : Q) (s : state) : state :=
  if gameOver s then s
  else if (maxActive <=? size (activeCubes s))%nat then s
  else
    let avail := available s in
    match avail with
    | [] => s
    | _ :: _ =>
        let k := randomIndex r (length avail) in
        if (k <? 0)%Z then s
        else
          match avail !! Z.to_nat k with
          | None => s
          | Some cube =>
              {| score := score s; timeLeft := timeLeft s;
                 gameOver := gameOver s; timerInterval := timerInterval s;
                 cubes := alter (setIsActive true) cube (cubes s);
                 activeCubes := {[cube]} ∪ activeCubes s |}
          end
    end.

(** [setInterval(() => { if (!gameOver) activateRandomCube(); }, 700)] *)
Definition spawnInterval (r : Q) (s : state) : state :=
  if negb (gameOver s) then activateRandomCube r s else s.

(** ** Click handler *)

Definition deactivateCube (cube : nat) (s : state) : state :=
  {| score := score s; timeLeft := timeLeft s;
     gameOver := gameOver s; timerInterval := timerInterval s;
     cubes := alter (setIsActive false) cube (cubes s);
     activeCubes := activeCubes s ∖ {[cube]} |}.

Definition incrScore (s : state) : state :=
  {| score := score s + 1; timeLeft := timeLeft s;
     gameOver := gameOver s; timerInterval := timerInterval s;
     cubes := cubes s; activeCubes := activeCubes s |}.

(** [onClick], given the raycaster's answer [intersects]. *)
Definition onClick (intersects : list nat) (s : state) : state :=
  if gameOver s then s
  else
    match intersects with
    | [] => s
    | hit :: _ =>
        match cubes s !! hit with
        | None => s
        | Some u =>
            if isActive u then deactivateCube hit (incrScore s) else s
        end
    end.

(** ** The event loop *)

Inductive event :=
| SpawnTick (r : Q)
| CountdownTick
| Click (intersects : list nat).

Definition step (e : event) (s : state) : state :=
  match e with
  | SpawnTick r => spawnInterval r s
  | CountdownTick => timerCallback s
  | Click intersects => onClick intersects s
  end.

Fixpoint run (es : list event) (s : state) : state :=
  match es with
  | [] => s
  | e :: es' => run es' (step e s)
  end.

Inductive reachable : state -> Prop :=
| reach_init : reachable initial
| reach_step s e : reachable s -> reachable (step e s).

(** ** Notions used by the properties *)

(** What the picking step hands to the hit resolver: the nearest
    intersected cube, [intersects[0].object], if any. *)
Definition pickedTarget (intersects : list nat) : option nat :=
  head intersects.

(** The [isActive] flag of cube [c], read through its reference. *)
Definition flagOf (s : state) (c : nat) : option bool :=
  isActive <$> cubes s !! c.

(** The click's argument is a target whose flag is set in [s]. *)
Definition clicksActive (e : event) (s : state) : bool :=
  match e with
  | Click intersects =>
      match pickedTarget intersects with
      | Some hit => bool_decide (flagOf s hit = Some true)
      | None => false
      end
  | _ => false
  end.

(** Number of clicks of the trace [es], played from [s], whose argument
    was an active target at the moment of the call. *)
Fixpoint activeClickCount (es : list event) (s : state) : Z :=
  match es with
  | [] => 0
  | e :: es' =>
      ((if clicksActive e s then 1 else 0) + activeClickCount es' (step e s))%Z
  end.

(** The same count restricted to the clicks made while the game is on. *)
Fixpoint liveActiveClickCount (es : list event) (s : state) : Z :=
  match es with
  | [] => 0
  | e :: es' =>
      ((if negb (gameOver s) && clicksActive e s then 1 else 0)
       + liveActiveClickCount es' (step e s))%Z
  end.

(** One spawn, thirty countdown ticks, then a click on the cube that is
    still lit. *)
Definition lateClickTrace : list event :=
  SpawnTick 0 :: repeat CountdownTick 30 ++ [Click [0%nat]].

(** The flag of a cube and its membership in [activeCubes] agree. *)
Definition flagsMatchSet (s : state) : Prop :=
  forall c : nat, c ∈ activeCubes s <-> flagOf s c = Some true.

(** [Math.random()] returns a binary64 number in [0, 1). *)
Definition unitInterval (r : Q) : Prop :=
  (0 <= r)%Q /\ (r < 1)%Q /\ isBinary64 r.

(** Every field of the state except the cube store and the active set. *)
Definition sameGame (s s' : state) : Prop :=
  score s' = score s /\ timeLeft s' = timeLeft s /\
  gameOver s' = gameOver s /\ timerInterval s' = timerInterval s.

(** While the game is on there is time left; once it is over there is
    none, and the countdown schedule is live exactly while the game is on. *)
Definition clockInv (s : state) : Prop :=
  (gameOver s = false -> (1 <= timeLeft s)%Z) /\
  (gameOver s = true -> timeLeft s = 0%Z) /\
  timerInterval s = negb (gameOver s).

(** ** The rest of the script: overlay, palette, grid and pointer *)

(** An integer inside a template literal, [`${n}`]: its decimal digits,
    with a minus sign when negative (JS prints integers this way below
    10^21, far beyond any counter of these scripts). *)
Definition numberToString (n : Z) : string :=
  NilZero.string_of_int (Z.to_int n).

(** The [textContent] of [scoreEl], [timeEl] and [messageEl]. *)
Record overlay := { scoreEl : string; timeEl : string; messageEl : string }.

(** [updateUI] overwrites the three texts from the globals. *)
Definition updateUI (s : state) : overlay :=
  {| scoreEl := "Score: " +:+ numberToString (score s);
     timeEl := "Time: " +:+ numberToString (timeLeft s) +:+ "s";
     messageEl := if gameOver s then "Game over! Reload to play again."
                  else "Click the glowing cubes!" |}.

(** The game together with what the overlay shows.  [updateUI()] is called
    once at load, at the end of every countdown callback that does not
    return early, and inside the successful-hit branch of [onClick]; the
    spawner never calls it. *)
Definition initialUI : state * overlay := (initial, updateUI initial).

Definition timerCallbackUI (g : state * overlay) : state * overlay :=
  if gameOver (fst g) then g
  else let s' := timerCallback (fst g) in (s', updateUI s').

Definition onClickUI (intersects : list nat) (g : state * overlay)
  : state * overlay :=
  let s := fst g in
  if gameOver s then g
  else
    match intersects with
    | [] => g
    | hit :: _ =>
        match cubes s !! hit with
        | None => g
        | Some u =>
            if isActive u
            then let s' := deactivateCube hit (incrScore s) in (s', updateUI s')
            else g
        end
    end.

Definition stepUI (e : event) (g : state * overlay) : state * overlay :=
  match e with
  | SpawnTick r => (spawnInterval r (fst g), snd g)
  | CountdownTick => timerCallbackUI g
  | Click intersects => onClickUI intersects g
  end.

Fixpoint runUI (es : list event) (g : state * overlay) : state * overlay :=
  match es with
  | [] => g
  | e :: es' => runUI es' (stepUI e g)
  end.

(** [randomColor]: [colors[Math.floor(Math.random() * colors.length)]],
    with [None] for [undefined]. *)
Definition colors : list Z :=
  [0xff6b6b; 0xffc46b; 0x6bffb0; 0x6bbdff; 0xd26bff]%Z.

Definition randomColor (r : Q) : option Z :=
  let k := randomIndex r (length colors) in
  if (k <? 0)%Z then None else colors !! Z.to_nat k.

(** The creation loop with the position each mesh is given.  The grid
    dimensions and the spacing are arguments; the script runs it at
    [rows], [cols] and [spacing]. *)
Definition spacing : Q := 5.

Record mesh := { position : Q * Q * Q; userDataOf : userData }.

(** [((j - (cols - 1) / 2) * spacing, 2, (i - (rows - 1) / 2) * spacing)] *)
Definition cubePosition (nrows ncols : nat) (sp : Q) (i j : nat) : Q * Q * Q :=
  ((inject_Z (Z.of_nat j) - (inject_Z (Z.of_nat ncols) - 1) / 2) * sp,
   2,
   (inject_Z (Z.of_nat i) - (inject_Z (Z.of_nat nrows) - 1) / 2) * sp)%Q.

Definition pushMesh (nrows ncols : nat) (sp : Q) (i j : nat)
    (st : Z * list mesh) : Z * list mesh :=
  ((fst st + 1)%Z,
   snd st ++ [ {| position := cubePosition nrows ncols sp i j;
                  userDataOf := {| id := fst st; isActive := false |} |} ]).

Definition createMeshesFor (nrows ncols : nat) (sp : Q) : Z * list mesh :=
  foldl (fun st i =>
           foldl (fun st' j => pushMesh nrows ncols sp i j st') st (seq 0 ncols))
        (1%Z, []) (seq 0 nrows).

Definition createMeshes : Z * list mesh := createMeshesFor rows cols spacing.

(** [renderer.domElement.getBoundingClientRect()] *)
Record rect := { left : Q; top : Q; width : Q; height : Q }.

(** The pointer in normalised device coordinates, as [onClick] computes it
    before raycasting, each operation rounded to binary64:
    [mouse.x = ((clientX - left) / width) * 2 - 1],
    [mouse.y = -((clientY - top) / height) * 2 + 1].  (A width or height
    of 0 makes the code divide by zero; the properties below assume them
    positive.) *)
Definition toNDC (clientX clientY : Q) (rc : rect) : Q * Q :=
  (roundBinary64
     (roundBinary64
        (roundBinary64 (roundBinary64 (clientX - left rc) / width rc) * 2) - 1),
   roundBinary64
     (roundBinary64
        (- roundBinary64 (roundBinary64 (clientY - top rc) / height rc) * 2) + 1))%Q.

(** Counting the events of a trace by kind. *)
Definition isCountdownTick (e : event) : bool :=
  match e with CountdownTick => true | _ => false end.

Definition isSpawnTick (e : event) : bool :=
  match e with SpawnTick _ => true | _ => false end.

Definition isClick (e : event) : bool :=
  match e with Click _ => true | _ => false end.

Definition countdownTicks (es : list event) : Z :=
  Z.of_nat (length (filter (fun e => isCountdownTick e = true) es)).

Definition spawnTicks (es : list event) : Z :=
  Z.of_nat (length (filter (fun e => isSpawnTick e = true) es)).

Definition clicks (es : list event) : Z :=
  Z.of_nat (length (filter (fun e => isClick e = true) es)).

(** * Properties *)

Lemma createCubes_ids :
  cubes initial
  = map (fun k => {| id := Z.of_nat k; isActive := false |}) (seq 1 24).
Proof. reflexivity. Qed.

Lemma cubes_initial_length : length (cubes initial) = 24%nat.
Proof. reflexivity. Qed.

(** ** Small facts about the callbacks *)

Lemma timerCallback_over s : gameOver s = true -> timerCallback s = s.
Proof. intros H. unfold timerCallback. now rewrite H. Qed.

Lemma activateRandomCube_over r s :
  gameOver s = true -> activateRandomCube r s = s.
Proof. intros H. unfold activateRandomCube. now rewrite H. Qed.

Lemma spawnInterval_over r s : gameOver s = true -> spawnInterval r s = s.
Proof. intros H. unfold spawnInterval. now rewrite H. Qed.

Lemma spawnInterval_live r s :
  spawnInterval r s = activateRandomCube r s.
Proof.
  unfold spawnInterval. destruct (gameOver s) eqn:E; simpl; [|reflexivity].
  symmetry. now apply activateRandomCube_over.
Qed.

Lemma onClick_over i s : gameOver s = true -> onClick i s = s.
Proof. intros H. unfold onClick. now rewrite H. Qed.

Lemma step_over e s : gameOver s = true -> step e s = s.
Proof.
  intros H. destruct e; simpl.
  - now apply spawnInterval_over.
  - now apply timerCallback_over.
  - now apply onClick_over.
Qed.

Lemma run_over es s : gameOver s = true -> run es s = s.
Proof.
  induction es as [|e es IH]; intros H; simpl; [reflexivity|].
  rewrite (step_over e s H). now apply IH.
Qed.

Lemma run_app es1 es2 s : run (es1 ++ es2) s = run es2 (run es1 s).
Proof. revert s. induction es1 as [|e es1 IH]; intros s; simpl; auto. Qed.

Lemma reachable_run es : reachable (run es initial).
Proof.
  assert (G : forall s, reachable s -> reachable (run es s)).
  { induction es as [|e es IH]; intros s Hs; simpl; [assumption|].
    apply IH. now constructor. }
  apply G. constructor.
Qed.

Lemma reachable_is_run s : reachable s -> exists es, s = run es initial.
Proof.
  induction 1 as [|s e _ [es ->]].
  - now exists [].
  - exists (es ++ [e]). now rewrite run_app.
Qed.

(** What a spawn does when it does something. *)
Lemma activateRandomCube_cases r s :
  activateRandomCube r s = s \/
  exists (k : nat) (cube : nat),
    gameOver s = false /\ (size (activeCubes s) < maxActive)%nat /\
    randomIndex r (length (available s)) = Z.of_nat k /\
    available s !! k = Some cube /\
    activateRandomCube r s =
      {| score := score s; timeLeft := timeLeft s;
         gameOver := gameOver s; timerInterval := timerInterval s;
         cubes := alter (setIsActive true) cube (cubes s);
         activeCubes := {[cube]} ∪ activeCubes s |}.
Proof.
  unfold activateRandomCube.
  destruct (gameOver s) eqn:Hg; [now left|].
  destruct (Nat.leb_spec maxActive (size (activeCubes s))) as [Hm|Hm]; [now left|].
  destruct (available s) as [|a av] eqn:Hav; [now left|].
  cbv zeta.
  destruct (Z.ltb_spec (randomIndex r (length (a :: av))) 0) as [Hk|Hk]; [now left|].
  destruct ((a :: av) !! Z.to_nat (randomIndex r (length (a :: av)))) as [cube|] eqn:Hc;
    [|now left].
  right. exists (Z.to_nat (randomIndex r (length (a :: av)))), cube.
  repeat split; try assumption; try reflexivity.
  now rewrite Z2Nat.id.
Qed.

Lemma elem_of_available s c :
  c ∈ available s <-> (c < length (cubes s))%nat /\ c ∉ activeCubes s.
Proof.
  unfold available. rewrite list_elem_of_filter, elem_of_seq. simpl. intuition lia.
Qed.

Lemma onClick_cases i s :
  onClick i s = s \/
  exists hit u,
    gameOver s = false /\ pickedTarget i = Some hit /\
    cubes s !! hit = Some u /\ isActive u = true /\
    onClick i s = deactivateCube hit (incrScore s).
Proof.
  unfold onClick.
  destruct (gameOver s) eqn:Hg; [now left|].
  destruct i as [|hit i]; [now left|].
  destruct (cubes s !! hit) as [u|] eqn:Hu; [|now left].
  destruct (isActive u) eqn:Ha; [|now left].
  right. exists hit, u. repeat split; auto.
Qed.

(** ** Binary64 rounding and the random index *)

Lemma pow2_pos e : (0 < pow2 e)%Q.
Proof. apply Qpower_0_lt. reflexivity. Qed.

Lemma pow2_add a b : (pow2 (a + b) == pow2 a * pow2 b)%Q.
Proof. apply Qpower_plus. discriminate. Qed.

Lemma pow2_int k : (0 <= k)%Z -> (pow2 k == inject_Z (2 ^ k))%Q.
Proof. intros Hk. unfold pow2. now rewrite (Zpower_Qpower 2 k Hk). Qed.

Lemma pow2_le a b : (a <= b)%Z -> (pow2 a <= pow2 b)%Q.
Proof. intros H. apply Qpower_le_compat_l; [exact H|discriminate]. Qed.

Lemma pow2_lt a b : (a < b)%Z -> (pow2 a < pow2 b)%Q.
Proof. intros H. apply Qpower_lt_compat_l; [exact H|reflexivity]. Qed.

Lemma pow2_lt_inv a b : (pow2 a < pow2 b)%Q -> (a < b)%Z.
Proof.
  intros H. destruct (Z_lt_le_dec a b) as [|Hle]; [assumption|].
  apply pow2_le in Hle. exfalso. apply (Qlt_irrefl (pow2 a)).
  eapply Qlt_le_trans; eassumption.
Qed.

Lemma roundNearestEven_near q :
  (q - (1 # 2) <= inject_Z (roundNearestEven q))%Q /\
  (inject_Z (roundNearestEven q) <= q + (1 # 2))%Q.
Proof.
  unfold roundNearestEven.
  pose proof (Qfloor_le q) as Hlo. pose proof (Qlt_floor q) as Hhi.
  assert (E1 : (inject_Z (Qfloor q + 1) == inject_Z (Qfloor q) + 1)%Q)
    by (rewrite inject_Z_plus; reflexivity).
  rewrite E1 in Hhi.
  destruct (Qcompare_spec (q - inject_Z (Qfloor q)) (1 # 2)) as [E|L|G];
    [destruct (Z.even (Qfloor q))| |]; rewrite ?E1;
    revert Hlo Hhi; try revert E; try revert L; try revert G;
    generalize (inject_Z (Qfloor q)); intros f; intros; split; lra.
Qed.

Lemma roundNearestEven_bounds q :
  (Qfloor q <= roundNearestEven q <= Qfloor q + 1)%Z.
Proof.
  unfold roundNearestEven.
  destruct (q - inject_Z (Qfloor q) ?= 1 # 2)%Q;
    [destruct (Z.even (Qfloor q))| |]; lia.
Qed.

Lemma roundNearestEven_ge_int q (z : Z) :
  (inject_Z z <= q)%Q -> (z <= roundNearestEven q)%Z.
Proof.
  intros H. apply Qfloor_resp_le in H. rewrite Qfloor_Z in H.
  pose proof (roundNearestEven_bounds q). lia.
Qed.

Lemma roundNearestEven_le_int q (z : Z) :
  (q <= inject_Z z)%Q -> (roundNearestEven q <= z)%Z.
Proof.
  intros H. pose proof (roundNearestEven_bounds q) as Hb.
  destruct (Qlt_le_dec q (inject_Z z)) as [Hlt|Hge].
  - assert (Qfloor q < z)%Z; [|lia].
    rewrite Zlt_Qlt. eapply Qle_lt_trans; [apply Qfloor_le|exact Hlt].
  - assert (E : (q == inject_Z z)%Q) by (apply Qle_antisym; assumption).
    assert (Hf : Qfloor q = z) by (rewrite (Qfloor_comp _ _ E); apply Qfloor_Z).
    unfold roundNearestEven. rewrite Hf.
    assert (L : (q - inject_Z z < 1 # 2)%Q)
      by (revert E; generalize (inject_Z z); intros; lra).
    destruct (Qcompare_spec (q - inject_Z z) (1 # 2)) as [E'|L'|G];
      [exfalso; rewrite E' in L; discriminate L|lia|exfalso].
    apply (Qlt_irrefl (1 # 2)). eapply Qlt_trans; eassumption.
Qed.

Lemma pow2_sub a b : (pow2 (a - b) == pow2 a / pow2 b)%Q.
Proof.
  unfold Z.sub. rewrite pow2_add. unfold pow2 at 2. rewrite Qpower_opp.
  reflexivity.
Qed.

Lemma Qmult_lt_cancel_r (x y z : Q) : (0 < z)%Q -> (x * z < y * z)%Q -> (x < y)%Q.
Proof. intros Hz H. now apply (Qmult_lt_r _ _ z Hz). Qed.

Lemma binade_spec (x : Q) :
  (0 < x)%Q -> (pow2 (binade x) <= x)%Q /\ (x < pow2 (binade x + 1))%Q.
Proof.
  intros Hx. destruct x as [a b]. 
  assert (Ha : (0 < a)%Z) by (unfold Qlt in Hx; simpl in Hx; lia).
  unfold binade. cbn [Qnum Qden].
  set (la := Z.log2 a). set (lb := Z.log2 (Zpos b)).
  assert (Hla0 : (0 <= la)%Z) by apply Z.log2_nonneg.
  assert (Hlb0 : (0 <= lb)%Z) by apply Z.log2_nonneg.
  destruct (Z.log2_spec a Ha) as [Hla1 Hla2]. fold la in Hla1, Hla2.
  destruct (Z.log2_spec (Zpos b) eq_refl) as [Hlb1 Hlb2]. fold lb in Hlb1, Hlb2.
  (* the same facts in Q *)
  assert (Qa1 : (pow2 la <= inject_Z a)%Q)
    by (rewrite pow2_int by lia; now rewrite <- Zle_Qle).
  assert (Qa2 : (inject_Z a < pow2 (la + 1))%Q).
  { rewrite pow2_int by lia. rewrite <- Zlt_Qlt.
    now replace (la + 1)%Z with (Z.succ la) by lia. }
  assert (Qb1 : (pow2 lb <= inject_Z (Zpos b))%Q)
    by (rewrite pow2_int by lia; now rewrite <- Zle_Qle).
  assert (Qb2 : (inject_Z (Zpos b) < pow2 (lb + 1))%Q).
  { rewrite pow2_int by lia. rewrite <- Zlt_Qlt.
    now replace (lb + 1)%Z with (Z.succ lb) by lia. }
  assert (Hb : (0 < inject_Z (Zpos b))%Q) by reflexivity.
  assert (Ex : ((a # b) * inject_Z (Zpos b) == inject_Z a)%Q).
  { rewrite (Qmake_Qdiv a b). field. discriminate. }
  assert (Hup : (a # b < pow2 (la - lb + 1))%Q).
  { apply (Qmult_lt_cancel_r _ _ (pow2 lb) (pow2_pos lb)).
    rewrite <- pow2_add. replace (la - lb + 1 + lb)%Z with (la + 1)%Z by lia.
    eapply Qle_lt_trans; [|exact Qa2]. rewrite <- Ex.
    apply Qmult_le_l; [exact Hx|exact Qb1]. }
  assert (Hlow : (pow2 (la - lb - 1) < a # b)%Q).
  { apply (Qmult_lt_cancel_r _ _ (pow2 (lb + 1)) (pow2_pos _)).
    rewrite <- pow2_add. replace (la - lb - 1 + (lb + 1))%Z with la by lia.
    eapply Qle_lt_trans; [exact Qa1|]. rewrite <- Ex.
    apply Qmult_lt_l; [exact Hx|exact Qb2]. }
  destruct (Qle_bool (pow2 (la - lb)) (a # b)) eqn:Hc.
  - apply Qle_bool_iff in Hc. split; assumption.
  - assert (Hn : ~ (pow2 (la - lb) <= a # b)%Q)
      by (intros H; apply Qle_bool_iff in H; congruence).
    apply Qnot_le_lt in Hn.
    replace (la - lb - 1 + 1)%Z with (la - lb)%Z by lia.
    split; [now apply Qlt_le_weak|exact Hn].
Qed.

Lemma binade_unique (x : Q) (e : Z) :
  (pow2 e <= x)%Q -> (x < pow2 (e + 1))%Q -> binade x = e.
Proof.
  intros Hlo Hhi.
  assert (Hx : (0 < x)%Q) by (eapply Qlt_le_trans; [apply pow2_pos|exact Hlo]).
  destruct (binade_spec x Hx) as [Blo Bhi].
  assert (binade x < e + 1)%Z
    by (apply pow2_lt_inv; eapply Qle_lt_trans; eassumption).
  assert (e < binade x + 1)%Z
    by (apply pow2_lt_inv; eapply Qle_lt_trans; eassumption).
  lia.
Qed.

Lemma roundPositive_unfold x :
  roundPositive x
  = (inject_Z (roundNearestEven (x / pow2 (ulpExponent x))) * pow2 (ulpExponent x))%Q.
Proof. reflexivity. Qed.

Lemma scaled_back (x : Q) (p : Z) : (x / pow2 p * pow2 p == x)%Q.
Proof.
  field. intros E. pose proof (pow2_pos p) as H. rewrite E in H.
  discriminate H.
Qed.

Lemma roundPositive_err x :
  (x - pow2 (ulpExponent x) * (1 # 2) <= roundPositive x)%Q /\
  (roundPositive x <= x + pow2 (ulpExponent x) * (1 # 2))%Q.
Proof.
  rewrite roundPositive_unfold. set (p := ulpExponent x).
  destruct (roundNearestEven_near (x / pow2 p)) as [Hlo Hhi].
  pose proof (pow2_pos p) as Hp. pose proof (scaled_back x p) as Ex.
  apply (Qmult_le_compat_r _ _ (pow2 p)) in Hlo; [|now apply Qlt_le_weak].
  apply (Qmult_le_compat_r _ _ (pow2 p)) in Hhi; [|now apply Qlt_le_weak].
  revert Hlo Hhi Ex.
  generalize (inject_Z (roundNearestEven (x / pow2 p))) as m.
  generalize (x / pow2 p)%Q as q. generalize (pow2 p) as u.
  intros u q m Hlo Hhi Ex. split.
  - apply Qle_trans with ((q - (1 # 2)) * u)%Q; [|exact Hlo].
    rewrite <- Ex. apply Qle_lteq. right. ring.
  - apply Qle_trans with ((q + (1 # 2)) * u)%Q; [exact Hhi|].
    rewrite <- Ex. apply Qle_lteq. right. ring.
Qed.

(** Grid points bound the rounding from both sides. *)
Lemma roundPositive_grid x (z : Z) :
  ((x <= inject_Z z * pow2 (ulpExponent x))%Q ->
   (roundPositive x <= inject_Z z * pow2 (ulpExponent x))%Q) /\
  ((inject_Z z * pow2 (ulpExponent x) <= x)%Q ->
   (inject_Z z * pow2 (ulpExponent x) <= roundPositive x)%Q).
Proof.
  rewrite roundPositive_unfold. set (p := ulpExponent x).
  pose proof (pow2_pos p) as Hp. pose proof (scaled_back x p) as Ex.
  split; intros H.
  - apply Qmult_le_compat_r; [|now apply Qlt_le_weak].
    rewrite <- Zle_Qle. apply roundNearestEven_le_int.
    apply (Qmult_le_r _ _ (pow2 p) Hp). now rewrite Ex.
  - apply Qmult_le_compat_r; [|now apply Qlt_le_weak].
    rewrite <- Zle_Qle. apply roundNearestEven_ge_int.
    apply (Qmult_le_r _ _ (pow2 p) Hp). now rewrite Ex.
Qed.

Lemma roundBinary64_pos x : (0 < x)%Q -> roundBinary64 x = roundPositive x.
Proof.
  intros H. unfold roundBinary64.
  destruct (Qcompare_spec x 0) as [E|L|G]; [exfalso|exfalso|reflexivity].
  - rewrite E in H. discriminate H.
  - apply (Qlt_irrefl 0). eapply Qlt_trans; eassumption.
Qed.

Lemma roundBinary64_zero x : (x == 0)%Q -> roundBinary64 x = 0%Q.
Proof.
  intros H. unfold roundBinary64.
  destruct (Qcompare_spec x 0) as [E|L|G]; [reflexivity|exfalso|exfalso].
  - rewrite H in L. discriminate L.
  - rewrite H in G. discriminate G.
Qed.

Lemma roundBinary64_neg x :
  (x < 0)%Q -> roundBinary64 x = (- roundPositive (- x))%Q.
Proof.
  intros H. unfold roundBinary64.
  destruct (Qcompare_spec x 0) as [E|L|G]; [exfalso|reflexivity|exfalso].
  - rewrite E in H. discriminate H.
  - apply (Qlt_irrefl 0). eapply Qlt_trans; eassumption.
Qed.

Lemma roundPositive_nonneg x : (0 < x)%Q -> (0 <= roundPositive x)%Q.
Proof.
  intros Hx. destruct (roundPositive_grid x 0) as [_ H].
  rewrite Qmult_0_l in H. apply H. now apply Qlt_le_weak.
Qed.

Lemma roundBinary64_nonneg x : (0 <= x)%Q -> (0 <= roundBinary64 x)%Q.
Proof.
  intros Hx. destruct (Qlt_le_dec 0 x) as [Hpos|Hle].
  - rewrite roundBinary64_pos by exact Hpos. now apply roundPositive_nonneg.
  - rewrite roundBinary64_zero; [apply Qle_refl|now apply Qle_antisym].
Qed.

(** Below 2^53 every integer is a binary64 number. *)
Lemma roundPositive_int x (j : Z) :
  (0 < x)%Q -> (x < pow2 53)%Q ->
  ((inject_Z j <= x)%Q -> (inject_Z j <= roundPositive x)%Q) /\
  ((x <= inject_Z j)%Q -> (roundPositive x <= inject_Z j)%Q).
Proof.
  intros Hx H53. destruct (binade_spec x Hx) as [Blo _].
  assert (Hb : (binade x < 53)%Z)
    by (apply pow2_lt_inv; eapply Qle_lt_trans; eassumption).
  set (p := ulpExponent x).
  assert (Hp : (p <= 0)%Z) by (unfold p, ulpExponent; lia).
  assert (Ej : (inject_Z j == inject_Z (j * 2 ^ (- p)) * pow2 p)%Q).
  { rewrite inject_Z_mult, <- (pow2_int (- p)) by lia.
    rewrite <- Qmult_assoc, <- pow2_add.
    replace (- p + p)%Z with 0%Z by lia. change (pow2 0) with 1%Q. ring. }
  destruct (roundPositive_grid x (j * 2 ^ (- p))) as [Hle Hge]. fold p in Hle, Hge.
  rewrite <- Ej in Hle, Hge. split; assumption.
Qed.

(** In the normal range the relative error is at most 2^-53. *)
Lemma roundPositive_normal x :
  (pow2 (-1022) <= x)%Q ->
  (x * (1 - pow2 (-53)) <= roundPositive x)%Q /\
  (roundPositive x <= x * (1 + pow2 (-53)))%Q.
Proof.
  intros Hn.
  assert (Hx : (0 < x)%Q) by (eapply Qlt_le_trans; [apply pow2_pos|exact Hn]).
  destruct (binade_spec x Hx) as [Blo Bhi].
  assert (Hb : (-1022 <= binade x)%Z).
  { assert (-1022 < binade x + 1)%Z; [|lia].
    apply pow2_lt_inv. eapply Qle_lt_trans; eassumption. }
  assert (Eu : (pow2 (ulpExponent x) * (1 # 2) == pow2 (binade x) * pow2 (-53))%Q).
  { unfold ulpExponent. rewrite Z.max_l by lia.
    replace (binade x - 52)%Z with (binade x + (-53) + 1)%Z by lia.
    rewrite !pow2_add. change (pow2 1) with 2%Q. ring. }
  assert (Hu : (pow2 (ulpExponent x) * (1 # 2) <= x * pow2 (-53))%Q).
  { rewrite Eu. apply Qmult_le_compat_r; [exact Blo|].
    apply Qlt_le_weak, pow2_pos. }
  destruct (roundPositive_err x) as [Elo Ehi].
  revert Hu Elo Ehi. generalize (pow2 (ulpExponent x) * (1 # 2))%Q as h.
  generalize (roundPositive x) as y. generalize (pow2 (-53)) as eps.
  intros eps y h Hu Elo Ehi. split.
  - apply Qle_trans with (x - h)%Q; [|exact Elo].
    apply Qle_trans with (x - x * eps)%Q; [apply Qle_lteq; right; ring|lra].
  - apply Qle_trans with (x + h)%Q; [exact Ehi|].
    apply Qle_trans with (x + x * eps)%Q; [lra|apply Qle_lteq; right; ring].
Qed.

(** Below the normal range the result stays below it. *)
Lemma roundPositive_tiny x :
  (0 < x)%Q -> (x < pow2 (-1022))%Q -> (roundPositive x <= pow2 (-1022))%Q.
Proof.
  intros Hx Ht. destruct (binade_spec x Hx) as [Blo _].
  assert (Hb : (binade x < -1022)%Z)
    by (apply pow2_lt_inv; eapply Qle_lt_trans; eassumption).
  assert (Ep : ulpExponent x = (-1074)%Z) by (unfold ulpExponent; lia).
  assert (Eg : (pow2 (-1022) == inject_Z (2 ^ 52) * pow2 (-1074))%Q).
  { rewrite <- (pow2_int 52) by lia. rewrite <- pow2_add. reflexivity. }
  destruct (roundPositive_grid x (2 ^ 52)) as [Hle _].
  rewrite Ep, <- Eg in Hle. apply Hle. now apply Qlt_le_weak.
Qed.

Lemma eps_bounds : (0 < pow2 (-53))%Q /\ (pow2 (-53) < 1)%Q.
Proof. split; [apply pow2_pos|reflexivity]. Qed.

(** A binary64 number below 1 is at most 1 - 2^-53. *)
Lemma unitInterval_below (r : Q) :
  unitInterval r -> (r <= 1 - pow2 (-53))%Q.
Proof.
  intros (H0 & H1 & Hd).
  destruct (Qlt_le_dec r (1 # 2)) as [Hs|Hh].
  - apply Qlt_le_weak. eapply Qlt_le_trans; [exact Hs|]. discriminate.
  - assert (Hx : (0 < r)%Q) by (eapply Qlt_le_trans; [|exact Hh]; reflexivity).
    assert (Hb : binade r = (-1)%Z) by (apply binade_unique; assumption).
    unfold isBinary64 in Hd. rewrite roundBinary64_pos in Hd by exact Hx.
    rewrite roundPositive_unfold in Hd.
    assert (Ep : ulpExponent r = (-53)%Z) by (unfold ulpExponent; rewrite Hb; reflexivity).
    rewrite Ep in Hd.
    set (m := roundNearestEven (r / pow2 (-53))) in Hd.
    assert (Hm : (m < 2 ^ 53)%Z).
    { rewrite Zlt_Qlt. apply (Qmult_lt_r _ _ (pow2 (-53)) (pow2_pos _)).
      rewrite Hd.
      assert (E1 : (inject_Z (2 ^ 53) * pow2 (-53) == 1)%Q) by reflexivity.
      now rewrite E1. }
    assert (Hm' : (m <= 2 ^ 53 - 1)%Z) by lia.
    rewrite Zle_Qle in Hm'. rewrite <- Hd.
    apply (Qmult_le_compat_r _ _ (pow2 (-53))) in Hm';
      [|apply Qlt_le_weak, pow2_pos].
    eapply Qle_trans; [exact Hm'|]. discriminate.
Qed.

Lemma Qfloor_lt_int (y : Q) (n : Z) : (y < inject_Z n)%Q -> (Qfloor y < n)%Z.
Proof.
  intros H. rewrite Zlt_Qlt. eapply Qle_lt_trans; [apply Qfloor_le|exact H].
Qed.

(** The product of a number of [0, 1 - 2^-53] and [n] rounds below [n]. *)
Lemma roundBinary64_below (x n : Q) :
  (0 <= x)%Q -> (1 <= n)%Q -> (x <= n * (1 - pow2 (-53)))%Q ->
  (roundBinary64 x < n)%Q.
Proof.
  intros H0 Hn Hx. destruct eps_bounds as [He0 He1].
  destruct (Qlt_le_dec 0 x) as [Hpos|Hz].
  - rewrite roundBinary64_pos by exact Hpos.
    destruct (Qlt_le_dec x (pow2 (-1022))) as [Ht|Hnorm].
    + eapply Qle_lt_trans; [now apply roundPositive_tiny|].
      eapply Qlt_le_trans; [|exact Hn]. reflexivity.
    + destruct (roundPositive_normal x Hnorm) as [_ Hhi].
      eapply Qle_lt_trans; [exact Hhi|].
      revert He0 He1 Hx Hn Hpos. generalize (pow2 (-53)) as eps.
      intros eps He0 He1 Hx Hn Hpos.
      apply Qle_lt_trans with (n * (1 - eps) * (1 + eps))%Q.
      * apply Qmult_le_compat_r; [exact Hx|lra].
      * assert (E : (n * (1 - eps) * (1 + eps) == n - n * (eps * eps))%Q) by ring.
        rewrite E.
        assert (0 < n * (eps * eps))%Q; [|lra].
        apply Qmult_lt_0_compat; [lra|]. now apply Qmult_lt_0_compat.
  - rewrite roundBinary64_zero by (now apply Qle_antisym). lra.
Qed.

Lemma randomIndex_range (r : Q) (n : nat) :
  (0 < n)%nat -> unitInterval r -> (0 <= randomIndex r n < Z.of_nat n)%Z.
Proof.
  intros Hn Hr. pose proof (unitInterval_below r Hr) as Hb.
  destruct Hr as (H0 & H1 & _). unfold randomIndex.
  assert (HN : (1 <= inject_Z (Z.of_nat n))%Q)
    by (change 1%Q with (inject_Z 1); rewrite <- Zle_Qle; lia).
  assert (Hx0 : (0 <= r * inject_Z (Z.of_nat n))%Q).
  { apply Qmult_le_0_compat; [exact H0|]. eapply Qle_trans; [|exact HN]. discriminate. }
  split.
  - change 0%Z with (Qfloor (inject_Z 0)). apply Qfloor_resp_le.
    now apply roundBinary64_nonneg.
  - apply Qfloor_lt_int, roundBinary64_below; [exact Hx0|exact HN|].
    rewrite (Qmult_comm (inject_Z _)).
    apply Qmult_le_compat_r; [exact Hb|]. eapply Qle_trans; [|exact HN]. discriminate.
Qed.

Lemma Qfloor_iff (x : Q) (k : Z) :
  Qfloor x = k <-> (inject_Z k <= x)%Q /\ (x < inject_Z (k + 1))%Q.
Proof.
  split.
  - intros <-. split; [apply Qfloor_le | apply Qlt_floor].
  - intros [Hlo Hhi].
    apply Qfloor_resp_le in Hlo. rewrite Qfloor_Z in Hlo.
    assert (Hup : (Qfloor x < k + 1)%Z).
    { rewrite Zlt_Qlt. eapply Qle_lt_trans; [apply Qfloor_le | exact Hhi]. }
    lia.
Qed.

(** The share of [0, 1) on which position [k] of [n] is drawn: all of
    [[k/n, (k+1)/n)] except possibly a last sliver of relative width
    2^-53, and nothing outside it except possibly such a sliver below. *)
Lemma randomIndex_share (r : Q) (n : nat) (k : Z) :
  (0 <= r)%Q -> (r < 1)%Q -> (0 < n)%nat -> (Z.of_nat n <= 2 ^ 53)%Z ->
  ((0 <= k)%Z ->
   (inject_Z k <= r * inject_Z (Z.of_nat n))%Q ->
   (r * inject_Z (Z.of_nat n) < inject_Z (k + 1) * (1 - pow2 (-53)))%Q ->
   randomIndex r n = k) /\
  (randomIndex r n = k ->
   (inject_Z k * (1 - pow2 (-53)) <= r * inject_Z (Z.of_nat n))%Q /\
   (r * inject_Z (Z.of_nat n) < inject_Z (k + 1))%Q).
Proof.
  intros H0 H1 Hn H53. unfold randomIndex.
  set (x := (r * inject_Z (Z.of_nat n))%Q).
  destruct eps_bounds as [He0 He1].
  assert (HN : (1 <= inject_Z (Z.of_nat n))%Q)
    by (change 1%Q with (inject_Z 1); rewrite <- Zle_Qle; lia).
  assert (HNpos : (0 < inject_Z (Z.of_nat n))%Q)
    by (eapply Qlt_le_trans; [|exact HN]; reflexivity).
  assert (Hx0 : (0 <= x)%Q)
    by (apply Qmult_le_0_compat; [exact H0|now apply Qlt_le_weak]).
  assert (Hx53 : (x < pow2 53)%Q).
  { apply Qlt_le_trans with (1 * inject_Z (Z.of_nat n))%Q.
    - unfold x. now apply Qmult_lt_compat_r.
    - rewrite Qmult_1_l, pow2_int by lia. now rewrite <- Zle_Qle. }
  assert (Hy0 : (0 <= roundBinary64 x)%Q) by now apply roundBinary64_nonneg.
  assert (Hone : (pow2 (-1022) < 1)%Q) by reflexivity.
  split.
  - intros Hk Hlo Hhi. apply Qfloor_iff.
    assert (Hk1 : (1 <= inject_Z (k + 1))%Q)
      by (change 1%Q with (inject_Z 1); rewrite <- Zle_Qle; lia).
    destruct (Qlt_le_dec 0 x) as [Hpos|Hz].
    + rewrite roundBinary64_pos by exact Hpos. split.
      * now apply (roundPositive_int x k Hpos Hx53).
      * destruct (Qlt_le_dec x (pow2 (-1022))) as [Ht|Hnorm].
        -- eapply Qle_lt_trans; [now apply roundPositive_tiny|].
           eapply Qlt_le_trans; eassumption.
        -- destruct (roundPositive_normal x Hnorm) as [_ Hup].
           eapply Qle_lt_trans; [exact Hup|].
           revert Hhi Hk1 He0 He1 Hpos.
           generalize (inject_Z (k + 1)) as K. generalize (pow2 (-53)) as eps.
           intros eps K Hhi Hk1 He0 He1 Hpos.
           apply Qlt_le_trans with (K * (1 - eps) * (1 + eps))%Q.
           ++ apply Qmult_lt_compat_r; [lra|exact Hhi].
           ++ assert (E : (K * (1 - eps) * (1 + eps) == K - K * (eps * eps))%Q) by ring.
              rewrite E.
              assert (0 <= K * (eps * eps))%Q; [|lra].
              apply Qmult_le_0_compat; [lra|].
              apply Qmult_le_0_compat; lra.
    + assert (Ex : (x == 0)%Q) by now apply Qle_antisym.
      rewrite (roundBinary64_zero x Ex). rewrite Ex in Hlo.
      change 0%Q with (inject_Z 0) in Hlo. rewrite <- Zle_Qle in Hlo.
      assert (k = 0%Z) by lia. subst k. split; [apply Qle_refl|reflexivity].
  - intros Hidx. apply Qfloor_iff in Hidx as [Hlo Hhi].
    assert (Hk : (0 <= k)%Z).
    { assert (0 < k + 1)%Z; [|lia]. rewrite Zlt_Qlt.
      eapply Qle_lt_trans; [exact Hy0|exact Hhi]. }
    split.
    + destruct (Z.eq_dec k 0%Z) as [->|Hk0].
      { rewrite Qmult_0_l. exact Hx0. }
      assert (Hk1 : (1 <= inject_Z k)%Q)
        by (change 1%Q with (inject_Z 1); rewrite <- Zle_Qle; lia).
      assert (Hy1 : (1 <= roundBinary64 x)%Q) by (eapply Qle_trans; eassumption).
      destruct (Qlt_le_dec 0 x) as [Hpos|Hz].
      * rewrite roundBinary64_pos in * by exact Hpos.
        destruct (Qlt_le_dec x (pow2 (-1022))) as [Ht|Hnorm].
        -- exfalso. pose proof (roundPositive_tiny x Hpos Ht) as Hty.
           apply (Qlt_irrefl 1). eapply Qle_lt_trans; [exact Hy1|].
           eapply Qle_lt_trans; eassumption.
        -- destruct (roundPositive_normal x Hnorm) as [_ Hup].
           assert (Hkx : (inject_Z k <= x * (1 + pow2 (-53)))%Q)
             by (eapply Qle_trans; eassumption).
           revert Hkx Hk1 He0 He1 Hpos.
           generalize (inject_Z k) as K. generalize (pow2 (-53)) as eps.
           intros eps K Hkx Hk1 He0 He1 Hpos.
           apply Qle_trans with (x * (1 + eps) * (1 - eps))%Q.
           ++ apply Qmult_le_compat_r; [exact Hkx|lra].
           ++ assert (E : (x * (1 + eps) * (1 - eps) == x - x * (eps * eps))%Q) by ring.
              rewrite E.
              assert (0 <= x * (eps * eps))%Q; [|lra].
              apply Qmult_le_0_compat; [lra|].
              apply Qmult_le_0_compat; lra.
      * exfalso. assert (Ex : (x == 0)%Q) by now apply Qle_antisym.
        rewrite (roundBinary64_zero x Ex) in Hy1.
        apply (Qle_not_lt _ _ Hy1). reflexivity.
    + destruct (Qlt_le_dec x (inject_Z (k + 1))) as [|Hge]; [assumption|].
      exfalso.
      assert (Hpos : (0 < x)%Q).
      { eapply Qlt_le_trans; [|exact Hge]. change 0%Q with (inject_Z 0).
        rewrite <- Zlt_Qlt. lia. }
      rewrite roundBinary64_pos in Hhi by exact Hpos.
      pose proof (proj1 (roundPositive_int x (k + 1) Hpos Hx53) Hge) as Hc.
      apply (Qlt_irrefl (inject_Z (k + 1))). eapply Qle_lt_trans; eassumption.
Qed.

(** ** Rounding depends on the value only *)

Lemma binade_comp (x y : Q) : (0 < x)%Q -> (x == y)%Q -> binade x = binade y.
Proof.
  intros Hx E. symmetry. destruct (binade_spec x Hx) as [Blo Bhi].
  apply binade_unique; now rewrite <- E.
Qed.

Lemma roundNearestEven_comp (q q' : Q) :
  (q == q')%Q -> roundNearestEven q = roundNearestEven q'.
Proof.
  intros E. unfold roundNearestEven. rewrite (Qfloor_comp _ _ E).
  assert (Ec : (q - inject_Z (Qfloor q') ?= 1 # 2)%Q
               = (q' - inject_Z (Qfloor q') ?= 1 # 2)%Q)
    by (now rewrite E).
  now rewrite Ec.
Qed.

Lemma roundPositive_comp (x y : Q) :
  (0 < x)%Q -> (x == y)%Q -> (roundPositive x == roundPositive y)%Q.
Proof.
  intros Hx E. rewrite !roundPositive_unfold. unfold ulpExponent.
  rewrite <- (binade_comp x y Hx E).
  set (p := (Z.max (binade x) (-1022) - 52)%Z).
  assert (Eq : (x / pow2 p == y / pow2 p)%Q) by now rewrite E.
  now rewrite (roundNearestEven_comp _ _ Eq).
Qed.

#[global] Instance roundBinary64_comp : Proper (Qeq ==> Qeq) roundBinary64.
Proof.
  intros x y E. destruct (Qcompare_spec x 0) as [Z0|L|G].
  - rewrite (roundBinary64_zero x Z0), (roundBinary64_zero y); [reflexivity|].
    now rewrite <- E.
  - assert (L' : (y < 0)%Q) by now rewrite <- E.
    rewrite (roundBinary64_neg x L), (roundBinary64_neg y L').
    assert (Hp : (0 < - x)%Q) by lra.
    assert (E' : (- x == - y)%Q) by now rewrite E.
    now rewrite (roundPositive_comp _ _ Hp E').
  - assert (G' : (0 < y)%Q) by now rewrite <- E.
    rewrite (roundBinary64_pos x G), (roundBinary64_pos y G').
    now apply roundPositive_comp.
Qed.

(** ** Integers, and binary64 numbers, bound the rounding *)

Lemma roundBinary64_int (x : Q) (j : Z) :
  (- pow2 53 < x)%Q -> (x < pow2 53)%Q ->
  ((inject_Z j <= x)%Q -> (inject_Z j <= roundBinary64 x)%Q) /\
  ((x <= inject_Z j)%Q -> (roundBinary64 x <= inject_Z j)%Q).
Proof.
  intros Hlo Hhi. destruct (Qcompare_spec x 0) as [Z0|L|G].
  - rewrite (roundBinary64_zero x Z0). rewrite Z0. tauto.
  - rewrite (roundBinary64_neg x L).
    assert (Hp : (0 < - x)%Q) by lra.
    assert (Hb : (- x < pow2 53)%Q) by lra.
    destruct (roundPositive_int (- x) (- j) Hp Hb) as [Hge Hle].
    rewrite inject_Z_opp in Hge, Hle.
    split; intros H.
    + assert (H' : (- x <= - inject_Z j)%Q) by lra.
      specialize (Hle H'). lra.
    + assert (H' : (- inject_Z j <= - x)%Q) by lra.
      specialize (Hge H'). lra.
  - rewrite (roundBinary64_pos x G). now apply roundPositive_int.
Qed.

Lemma isBinary64_grid (g : Q) :
  (0 < g)%Q -> isBinary64 g ->
  (g == inject_Z (roundNearestEven (g / pow2 (ulpExponent g))) * pow2 (ulpExponent g))%Q.
Proof.
  intros Hg Hd. unfold isBinary64 in Hd.
  rewrite roundBinary64_pos in Hd by exact Hg. symmetry. exact Hd.
Qed.

(** A binary64 number above [x] is not overtaken by rounding [x]. *)
Lemma roundBinary64_le_double (x g : Q) :
  (0 <= x)%Q -> (x <= g)%Q -> isBinary64 g -> (roundBinary64 x <= g)%Q.
Proof.
  intros H0 Hxg Hd. destruct (Qlt_le_dec 0 x) as [Hx|Hz].
  2:{ rewrite roundBinary64_zero by now apply Qle_antisym.
      eapply Qle_trans; eassumption. }
  assert (Hg : (0 < g)%Q) by (eapply Qlt_le_trans; eassumption).
  rewrite roundBinary64_pos by exact Hx.
  destruct (binade_spec x Hx) as [Xlo Xhi], (binade_spec g Hg) as [Glo Ghi].
  assert (Hle : (binade x <= binade g)%Z).
  { assert (binade x < binade g + 1)%Z; [|lia]. apply pow2_lt_inv.
    eapply Qle_lt_trans; [exact Xlo|]. eapply Qle_lt_trans; eassumption. }
  destruct (Z.eq_dec (ulpExponent x) (ulpExponent g)) as [Ep|Np].
  - pose proof (isBinary64_grid g Hg Hd) as Eg. rewrite <- Ep in Eg.
    destruct (roundPositive_grid x (roundNearestEven (g / pow2 (ulpExponent x))))
      as [Hgrid _].
    rewrite <- Eg in Hgrid. now apply Hgrid.
  - set (e' := Z.max (binade x) (-1022)).
    assert (He' : (e' + 1 <= binade g)%Z)
      by (unfold ulpExponent in Np; unfold e'; lia).
    assert (Egrid : (pow2 (e' + 1) == inject_Z (2 ^ 53) * pow2 (ulpExponent x))%Q).
    { rewrite <- (pow2_int 53) by lia. rewrite <- pow2_add. unfold ulpExponent.
      fold e'. replace (53 + (e' - 52))%Z with (e' + 1)%Z by lia. reflexivity. }
    destruct (roundPositive_grid x (2 ^ 53)) as [Hgrid _].
    rewrite <- Egrid in Hgrid.
    apply Qle_trans with (pow2 (e' + 1)).
    + apply Hgrid. apply Qlt_le_weak. eapply Qlt_le_trans; [exact Xhi|].
      apply pow2_le. unfold e'. lia.
    + eapply Qle_trans; [|exact Glo]. now apply pow2_le.
Qed.

(** Multiples of 2^-53 below 1 are binary64 numbers. *)
Lemma isBinary64_dyadic (m : Z) :
  (0 <= m < 2 ^ 53)%Z -> isBinary64 (inject_Z m * pow2 (-53)).
Proof.
  intros [Hm0 Hm1]. unfold isBinary64.
  set (g := (inject_Z m * pow2 (-53))%Q).
  destruct (Z.eq_dec m 0%Z) as [->|Hnz].
  { reflexivity. }
  assert (Hg : (0 < g)%Q).
  { unfold g. apply Qmult_lt_0_compat; [|apply pow2_pos].
    change 0%Q with (inject_Z 0). rewrite <- Zlt_Qlt. lia. }
  assert (Hg1 : (g < pow2 0)%Q).
  { unfold g. change (pow2 0) with 1%Q.
    assert (E1 : (1 == inject_Z (2 ^ 53) * pow2 (-53))%Q) by reflexivity.
    rewrite E1. apply Qmult_lt_compat_r; [apply pow2_pos|].
    now rewrite <- Zlt_Qlt. }
  rewrite roundBinary64_pos by exact Hg.
  destruct (binade_spec g Hg) as [Blo _].
  assert (Hb : (binade g < 0)%Z)
    by (apply pow2_lt_inv; eapply Qle_lt_trans; eassumption).
  set (p := ulpExponent g).
  assert (Hp : (p <= -53)%Z) by (unfold p, ulpExponent; lia).
  assert (Eg : (g == inject_Z (m * 2 ^ (-53 - p)) * pow2 p)%Q).
  { unfold g. rewrite inject_Z_mult, <- (pow2_int (-53 - p)) by lia.
    rewrite <- Qmult_assoc, <- pow2_add.
    now replace (-53 - p + p)%Z with (-53)%Z by lia. }
  destruct (roundPositive_grid g (m * 2 ^ (-53 - p))) as [Hle Hge].
  fold p in Hle, Hge. rewrite <- Eg in Hle, Hge.
  apply Qle_antisym; [apply Hle|apply Hge]; apply Qle_refl.
Qed.

(** Every position can be drawn: some binary64 number of [0, 1) gives it. *)
Lemma randomIndex_onto (n k : nat) :
  (k < n)%nat -> (Z.of_nat n <= 2 ^ 52)%Z ->
  exists r, unitInterval r /\ randomIndex r n = Z.of_nat k.
Proof.
  intros Hk Hn.
  set (N := Z.of_nat n). set (K := Z.of_nat k).
  set (m := ((K * 2 ^ 53 + N - 1) / N)%Z).
  assert (HN : (0 < N)%Z) by (unfold N; lia).
  assert (HK : (0 <= K < N)%Z) by (unfold K, N; lia).
  assert (Hm1 : (K * 2 ^ 53 <= m * N)%Z).
  { unfold m. pose proof (Z.mul_div_le (K * 2 ^ 53 + N - 1) N HN).
    pose proof (Z.mod_pos_bound (K * 2 ^ 53 + N - 1) N HN).
    pose proof (Z.div_mod (K * 2 ^ 53 + N - 1) N ltac:(lia)). nia. }
  assert (Hm2 : (m * N <= K * 2 ^ 53 + N - 1)%Z).
  { unfold m. pose proof (Z.mul_div_le (K * 2 ^ 53 + N - 1) N HN). lia. }
  assert (Hm0 : (0 <= m)%Z) by (unfold m; apply Z.div_pos; lia).
  assert (Hm53 : (m < 2 ^ 53)%Z) by nia.
  set (r := (inject_Z m * pow2 (-53))%Q).
  assert (Eeps : forall z : Z, (inject_Z z == inject_Z (z * 2 ^ 53) * pow2 (-53))%Q).
  { intros z. rewrite inject_Z_mult, <- Qmult_assoc.
    assert (E1 : (inject_Z (2 ^ 53) * pow2 (-53) == 1)%Q) by reflexivity.
    rewrite E1. ring. }
  assert (Ex : (r * inject_Z N == inject_Z (m * N) * pow2 (-53))%Q)
    by (unfold r; rewrite inject_Z_mult; ring).
  assert (Hr0 : (0 <= r)%Q).
  { unfold r. apply Qmult_le_0_compat; [|apply Qlt_le_weak, pow2_pos].
    change 0%Q with (inject_Z 0). now rewrite <- Zle_Qle. }
  assert (Hr1 : (r < 1)%Q).
  { unfold r. rewrite (Eeps 1%Z). apply Qmult_lt_compat_r; [apply pow2_pos|].
    rewrite <- Zlt_Qlt. lia. }
  exists r. split.
  - split; [exact Hr0|]. split; [exact Hr1|]. apply isBinary64_dyadic. lia.
  - apply (proj1 (randomIndex_share r n K Hr0 Hr1 ltac:(lia) ltac:(fold N; lia)));
      fold N; [lia| |].
    + rewrite Ex, (Eeps K). apply Qmult_le_compat_r;
        [now rewrite <- Zle_Qle|apply Qlt_le_weak, pow2_pos].
    + rewrite Ex.
      assert (E2 : (inject_Z (K + 1) * (1 - pow2 (-53))
                    == inject_Z ((K + 1) * 2 ^ 53 - (K + 1)) * pow2 (-53))%Q).
      { pose proof (Eeps (K + 1)%Z) as HA.
        assert (E3 : (inject_Z ((K + 1) * 2 ^ 53 - (K + 1))
                      == inject_Z ((K + 1) * 2 ^ 53) - inject_Z (K + 1))%Q)
          by (unfold Qeq, Qminus, Qplus, Qopp, inject_Z; cbn [Qnum Qden]; lia).
        rewrite E3. revert HA. generalize (inject_Z ((K + 1) * 2 ^ 53)) as B.
        generalize (inject_Z (K + 1)) as A. intros A B HA.
        transitivity (A - A * pow2 (-53))%Q; [ring|].
        rewrite HA at 1. ring. }
      rewrite E2. apply Qmult_lt_compat_r; [apply pow2_pos|].
      rewrite <- Zlt_Qlt. nia.
Qed.

(** ** Flags and the active set *)

Lemma flag_alter_eq b c (cs : list userData) :
  isActive <$> alter (setIsActive b) c cs !! c = (fun _ => b) <$> cs !! c.
Proof. rewrite list_lookup_alter_eq. now destruct (cs !! c). Qed.

Lemma flag_alter_ne b c c' (cs : list userData) :
  c <> c' -> alter (setIsActive b) c cs !! c' = cs !! c'.
Proof. apply list_lookup_alter_ne. Qed.

Lemma flagOf_lt s c b : flagOf s c = Some b -> (c < length (cubes s))%nat.
Proof.
  unfold flagOf. destruct (cubes s !! c) eqn:E; [|discriminate].
  intros _. now apply lookup_lt_Some in E.
Qed.

Lemma flagOf_initial c : flagOf initial c <> Some true.
Proof.
  unfold flagOf. rewrite createCubes_ids, list_lookup_fmap.
  now destruct (seq 1 24 !! c).
Qed.

Lemma flagsMatchSet_initial : flagsMatchSet initial.
Proof.
  intros c. split.
  - intros H. now apply not_elem_of_empty in H.
  - intros H. now apply flagOf_initial in H.
Qed.

Lemma flagsMatchSet_available s c :
  flagsMatchSet s -> (c ∈ available s <-> flagOf s c = Some false).
Proof.
  intros Hinv. rewrite elem_of_available, (Hinv c). unfold flagOf. split.
  - intros [Hlt Hn]. apply lookup_lt_is_Some in Hlt as [u Hu].
    rewrite Hu in *. simpl in *. destruct (isActive u); congruence.
  - intros H. split; [now apply (flagOf_lt s c false)|]. rewrite H. congruence.
Qed.

Lemma flagsMatchSet_activate r s :
  flagsMatchSet s -> flagsMatchSet (activateRandomCube r s).
Proof.
  intros Hinv.
  destruct (activateRandomCube_cases r s) as [->|(k & cube & _ & _ & _ & Hc & ->)];
    [assumption|].
  assert (Hin : cube ∈ available s) by (apply list_elem_of_lookup; eauto).
  apply elem_of_available in Hin as [Hlt _].
  apply lookup_lt_is_Some in Hlt as [u Hu].
  intros c. unfold flagOf. simpl. destruct (decide (c = cube)) as [->|Hne].
  - rewrite flag_alter_eq, Hu. simpl. split; [reflexivity|].
    intros _. apply elem_of_union. left. now apply elem_of_singleton.
  - rewrite flag_alter_ne by congruence. rewrite elem_of_union, elem_of_singleton.
    specialize (Hinv c). unfold flagOf in Hinv. tauto.
Qed.

Lemma flagsMatchSet_deactivate hit s :
  flagsMatchSet s -> flagsMatchSet (deactivateCube hit (incrScore s)).
Proof.
  intros Hinv c. unfold flagOf. simpl. destruct (decide (c = hit)) as [->|Hne].
  - rewrite flag_alter_eq, elem_of_difference, elem_of_singleton. split.
    + intros [_ Hno]. now destruct Hno.
    + destruct (cubes s !! hit); discriminate.
  - rewrite flag_alter_ne by congruence.
    rewrite elem_of_difference, elem_of_singleton.
    specialize (Hinv c). unfold flagOf in Hinv. tauto.
Qed.

Lemma flagsMatchSet_step e s : flagsMatchSet s -> flagsMatchSet (step e s).
Proof.
  intros Hinv. destruct e as [r| |i]; simpl.
  - rewrite spawnInterval_live. now apply flagsMatchSet_activate.
  - unfold timerCallback. destruct (gameOver s); [assumption|].
    destruct (timeLeft s - 1 <=? 0)%Z; exact Hinv.
  - destruct (onClick_cases i s) as [->|(hit & u & _ & _ & _ & _ & ->)];
      [assumption|now apply flagsMatchSet_deactivate].
Qed.

Lemma reachable_flagsMatchSet s : reachable s -> flagsMatchSet s.
Proof.
  induction 1; [apply flagsMatchSet_initial|now apply flagsMatchSet_step].
Qed.

(** ** Size of the active set *)

Lemma remove_subseteq (A : gset nat) (c : nat) : A ∖ {[c]} ⊆ A.
Proof. intros x Hx. now apply elem_of_difference in Hx as [Hx _]. Qed.

Lemma activateRandomCube_size r s :
  (size (activeCubes s) <= maxActive)%nat ->
  (size (activeCubes (activateRandomCube r s)) <= maxActive)%nat.
Proof.
  intros Hsz.
  destruct (activateRandomCube_cases r s) as [->|(k & cube & _ & Hlt & _ & _ & ->)];
    [assumption|].
  simpl. rewrite size_union_alt, size_singleton.
  pose proof (subseteq_size _ _ (remove_subseteq (activeCubes s) cube)). lia.
Qed.

Lemma step_size e s :
  (size (activeCubes s) <= maxActive)%nat ->
  (size (activeCubes (step e s)) <= maxActive)%nat.
Proof.
  intros Hsz. destruct e as [r| |i]; simpl.
  - rewrite spawnInterval_live. now apply activateRandomCube_size.
  - unfold timerCallback. destruct (gameOver s); [assumption|].
    destruct (timeLeft s - 1 <=? 0)%Z; exact Hsz.
  - destruct (onClick_cases i s) as [->|(hit & u & _ & _ & _ & _ & ->)];
      [assumption|].
    simpl. etransitivity; [|exact Hsz]. apply subseteq_size, remove_subseteq.
Qed.

(** ** The clock *)

Lemma clockInv_timerCallback s : clockInv s -> clockInv (timerCallback s).
Proof.
  intros (Hon & Hoff & Hsch). unfold timerCallback.
  destruct (gameOver s) eqn:Hg;
    [unfold clockInv; rewrite Hg; exact (conj Hon (conj Hoff Hsch))|].
  destruct (Z.leb_spec (timeLeft s - 1) 0) as [Hle|Hgt]; unfold clockInv; simpl.
  - split; [discriminate|]. split; reflexivity.
  - split; [intros _; lia|]. split; [discriminate|exact Hsch].
Qed.

Lemma activateRandomCube_sameGame r s : sameGame s (activateRandomCube r s).
Proof.
  destruct (activateRandomCube_cases r s) as [->|(k & cube & _ & _ & _ & _ & ->)];
    now repeat split.
Qed.

Lemma clockInv_sameGame s s' : sameGame s s' -> clockInv s -> clockInv s'.
Proof.
  intros (_ & Ht & Hg & Hi) (Hon & Hoff & Hsch). unfold clockInv.
  rewrite Ht, Hg, Hi. now repeat split.
Qed.

Lemma clockInv_step e s : clockInv s -> clockInv (step e s).
Proof.
  intros Hinv. destruct e as [r| |i]; simpl.
  - rewrite spawnInterval_live.
    exact (clockInv_sameGame _ _ (activateRandomCube_sameGame r s) Hinv).
  - now apply clockInv_timerCallback.
  - destruct (onClick_cases i s) as [->|(hit & u & _ & _ & _ & _ & ->)];
      [assumption|exact Hinv].
Qed.

Lemma reachable_clockInv s : reachable s -> clockInv s.
Proof.
  induction 1; [|now apply clockInv_step].
  repeat split; simpl; intros; (lia || discriminate).
Qed.

(** Running the callback by hand and letting the host deliver it are the
    same thing in every reachable state: the interval is cleared only when
    the callback has nothing left to do. *)
Lemma hostCountdown_reachable s :
  reachable s -> hostCountdown s = timerCallback s.
Proof.
  intros Hr. destruct (reachable_clockInv s Hr) as (_ & _ & Hsch).
  unfold hostCountdown. rewrite Hsch.
  destruct (gameOver s) eqn:Hg; simpl; [|reflexivity].
  symmetry. now apply timerCallback_over.
Qed.

(** ** Score *)

Lemma step_score e s :
  score (step e s)
  = (score s + (if negb (gameOver s) && clicksActive e s then 1 else 0))%Z.
Proof.
  destruct (gameOver s) eqn:Hg.
  - rewrite (step_over e s Hg). simpl. lia.
  - destruct e as [r| |i]; simpl.
    + rewrite spawnInterval_live.
      destruct (activateRandomCube_sameGame r s) as [-> _]. lia.
    + unfold timerCallback. rewrite Hg.
      destruct (timeLeft s - 1 <=? 0)%Z; simpl; lia.
    + unfold onClick, pickedTarget, flagOf. rewrite Hg.
      destruct i as [|hit i]; simpl; [lia|].
      destruct (cubes s !! hit) as [u|]; simpl; [|lia].
      destruct (isActive u); simpl; lia.
Qed.

Lemma run_score es s :
  score (run es s) = (score s + liveActiveClickCount es s)%Z.
Proof.
  revert s. induction es as [|e es IH]; intros s; simpl; [lia|].
  rewrite IH, step_score. lia.
Qed.

(** C1, as stated, fails: the score is not the number of clicks whose
    argument was an active target at the moment of the call.  A cube lit
    before the countdown ends stays lit, and a click on it after the end is
    a click on an active target that [onClick] ignores. *)
Lemma late_click_not_counted :
  score (run lateClickTrace initial) <> activeClickCount lateClickTrace initial.
Proof. vm_compute. discriminate. Qed.

(** C1, amended: after any finite trace of spawner ticks, countdown ticks
    and clicks played from the initial state, the score is exactly the
    number of clicks that were made while the game was not over and whose
    argument was a target with its [isActive] flag set at that moment. *)
Theorem score_counts_live_hits (es : list event) :
  score (run es initial) = liveActiveClickCount es initial.
Proof. rewrite run_score. reflexivity. Qed.

(** C2: in every reachable state the active set has at most [maxActive]
    (= 3) members, and a spawner tick run in any state within the bound
    stays within the bound. *)
Theorem active_set_bounded :
  maxActive = 3%nat /\
  (forall s, reachable s -> (size (activeCubes s) <= maxActive)%nat) /\
  (forall s r, (size (activeCubes s) <= maxActive)%nat ->
     (size (activeCubes (spawnInterval r s)) <= maxActive)%nat).
Proof.
  split; [reflexivity|]. split.
  - induction 1 as [|s e _ IH]; [|now apply step_size].
    unfold initial. cbn [activeCubes]. rewrite size_empty. unfold maxActive. lia.
  - intros s r H. rewrite spawnInterval_live. now apply activateRandomCube_size.
Qed.

Lemma active_set_bounded_witness :
  reachable (step (SpawnTick 0) initial) /\
  (size (activeCubes (step (SpawnTick 0) initial)) <= maxActive)%nat /\
  (size (activeCubes (spawnInterval 0 (step (SpawnTick 0) initial))) <= maxActive)%nat.
Proof.
  assert (R : reachable (step (SpawnTick 0) initial))
    by (apply reach_step, reach_init).
  split; [exact R|]. split.
  - exact (proj1 (proj2 active_set_bounded) _ R).
  - apply (proj2 (proj2 active_set_bounded)).
    exact (proj1 (proj2 active_set_bounded) _ R).
Defined.

(** C3: once the game is over, a countdown tick, a spawner tick and a
    click with any argument each return the state as it is, so no later
    sequence of them changes the score, the time left, the active set or
    the flag of any target. *)
Theorem game_over_is_final (s : state) :
  gameOver s = true ->
  timerCallback s = s /\
  (forall r, spawnInterval r s = s /\ activateRandomCube r s = s) /\
  (forall intersects, onClick intersects s = s) /\
  (forall es,
     score (run es s) = score s /\ timeLeft (run es s) = timeLeft s /\
     activeCubes (run es s) = activeCubes s /\ cubes (run es s) = cubes s).
Proof.
  intros H. split; [now apply timerCallback_over|]. split.
  - intros r. split; [now apply spawnInterval_over|now apply activateRandomCube_over].
  - split; [intros i; now apply onClick_over|].
    intros es. now rewrite (run_over es s H).
Qed.

(** The state in which the late click of [lateClickTrace] arrives. *)
Lemma game_over_is_final_witness :
  let s := run (SpawnTick 0 :: repeat CountdownTick 30) initial in
  gameOver s = true /\
  score (run [Click [0%nat]; SpawnTick (1 # 2); CountdownTick] s) = score s.
Proof.
  intros s. assert (H : gameOver s = true) by (vm_compute; reflexivity).
  split; [exact H|].
  exact (proj1 (proj2 (proj2 (proj2 (game_over_is_final s H))) _)).
Defined.

(** C4: a countdown tick during play takes one second off; when that
    leaves nothing it sets the time to 0, ends the game and clears its own
    interval, so that the host delivers no further tick; once the game is
    over it does nothing.  From one second left,
    one tick gives time 0 and game over, and another tick changes
    nothing. *)
Theorem countdown_tick_spec (s : state) :
  (gameOver s = false -> (0 < timeLeft s - 1)%Z ->
     timerCallback s =
       {| score := score s; timeLeft := timeLeft s - 1; gameOver := false;
          timerInterval := timerInterval s;
          cubes := cubes s; activeCubes := activeCubes s |}) /\
  (gameOver s = false -> (timeLeft s - 1 <= 0)%Z ->
     timerCallback s =
       {| score := score s; timeLeft := 0; gameOver := true;
          timerInterval := false;
          cubes := cubes s; activeCubes := activeCubes s |}) /\
  (gameOver s = true -> timerCallback s = s) /\
  (gameOver s = false -> timeLeft s = 1%Z ->
     timeLeft (timerCallback s) = 0%Z /\ gameOver (timerCallback s) = true /\
     timerInterval (timerCallback s) = false /\
     hostCountdown (timerCallback s) = timerCallback s /\
     timerCallback (timerCallback s) = timerCallback s).
Proof.
  unfold hostCountdown, timerCallback. split; [|split; [|split]].
  - intros Hg Ht. rewrite Hg.
    destruct (Z.leb_spec (timeLeft s - 1) 0); [lia|reflexivity].
  - intros Hg Ht. rewrite Hg.
    destruct (Z.leb_spec (timeLeft s - 1) 0); [reflexivity|lia].
  - intros Hg. now rewrite Hg.
  - intros Hg Ht. rewrite Hg, Ht. cbn. auto.
Qed.

Lemma countdown_tick_spec_witness :
  let s := run (repeat CountdownTick 29) initial in
  (gameOver s = false /\ timeLeft s = 1%Z) /\
  timeLeft (timerCallback s) = 0%Z /\ gameOver (timerCallback s) = true /\
  timerInterval (timerCallback s) = false /\
  hostCountdown (timerCallback s) = timerCallback s /\
  timerCallback (timerCallback s) = timerCallback s.
Proof.
  intros s.
  assert (Hg : gameOver s = false) by (vm_compute; reflexivity).
  assert (Ht : timeLeft s = 1%Z) by (vm_compute; reflexivity).
  split; [now split|].
  exact (proj2 (proj2 (proj2 (countdown_tick_spec s))) Hg Ht).
Defined.

(** ** Clicks *)

(** C5: during play, a click whose picked target has its flag set adds
    exactly 1 to the score, clears that target's flag and takes it out of
    the active set, touching no other target; a click that picks nothing,
    or a target whose flag is not set, leaves the whole state as it is. *)
Theorem onClick_spec (s : state) (intersects : list nat) :
  gameOver s = false ->
  (forall hit,
     pickedTarget intersects = Some hit -> flagOf s hit = Some true ->
     onClick intersects s =
       {| score := score s + 1; timeLeft := timeLeft s;
          gameOver := gameOver s; timerInterval := timerInterval s;
          cubes := alter (setIsActive false) hit (cubes s);
          activeCubes := activeCubes s ∖ {[hit]} |} /\
     flagOf (onClick intersects s) hit = Some false /\
     (hit ∉ activeCubes (onClick intersects s)) /\
     (forall c, c <> hit ->
        cubes (onClick intersects s) !! c = cubes s !! c)) /\
  (pickedTarget intersects = None \/
   (exists hit, pickedTarget intersects = Some hit /\ flagOf s hit <> Some true) ->
   onClick intersects s = s).
Proof.
  intros Hg. unfold pickedTarget, flagOf. split.
  - intros hit Hp Hf. destruct intersects as [|h i]; [discriminate|].
    injection Hp as ->.
    destruct (cubes s !! hit) as [u|] eqn:Hu; [|discriminate].
    injection Hf as Ha.
    assert (E : onClick (hit :: i) s = deactivateCube hit (incrScore s)).
    { unfold onClick. now rewrite Hg, Hu, Ha. }
    rewrite E. unfold deactivateCube, incrScore. cbn.
    split; [reflexivity|]. split; [now rewrite flag_alter_eq, Hu|]. split.
    + rewrite elem_of_difference, elem_of_singleton. tauto.
    + intros c Hc. apply flag_alter_ne. congruence.
  - unfold onClick. rewrite Hg. intros [Hn|(hit & Hp & Hf)].
    + destruct intersects; [reflexivity|discriminate].
    + destruct intersects as [|h i]; [discriminate|]. injection Hp as ->.
      destruct (cubes s !! hit) as [u|]; [|reflexivity]. simpl in Hf.
      destruct (isActive u); [now destruct Hf|reflexivity].
Qed.

Lemma onClick_spec_witness :
  let s := spawnInterval (3 # 16) initial in
  (gameOver s = false /\ pickedTarget [4%nat; 7%nat] = Some 4%nat /\
   flagOf s 4 = Some true) /\
  flagOf (onClick [4%nat; 7%nat] s) 4 = Some false /\
  score (onClick [4%nat; 7%nat] s) = (score s + 1)%Z.
Proof.
  intros s.
  assert (Hg : gameOver s = false) by (vm_compute; reflexivity).
  assert (Hf : flagOf s 4 = Some true) by (vm_compute; reflexivity).
  split; [repeat split; assumption|].
  destruct (proj1 (onClick_spec s [4%nat; 7%nat] Hg) 4%nat eq_refl Hf)
    as (E & Hflag & _ & _).
  split; [exact Hflag|]. now rewrite E.
Defined.

(** C6: a click repeated on the same pick, with nothing in between, leaves
    the state the first click produced: the second call finds the flag
    cleared.  On the grid: lighting the cube with id 5 and clicking it
    gives score 1, flag cleared and the cube out of the active set, and a
    second click on it keeps the score at 1. *)
Theorem onClick_idempotent :
  (forall intersects s,
     onClick intersects (onClick intersects s) = onClick intersects s) /\
  (let s1 := spawnInterval (3 # 16) initial in
   let s2 := onClick [4%nat] s1 in
   id <$> cubes s1 !! 4%nat = Some 5%Z /\ flagOf s1 4 = Some true /\
   score s2 = 1%Z /\ flagOf s2 4 = Some false /\
   (4%nat ∉ activeCubes s2) /\
   score (onClick [4%nat] s2) = 1%Z).
Proof.
  split.
  - intros i s.
    destruct (onClick_cases i s) as [E|(hit & u & Hg & Hp & Hu & Ha & E)].
    + rewrite E. exact E.
    + rewrite E. unfold onClick, pickedTarget in *.
      destruct i as [|h i]; [discriminate|]. injection Hp as ->.
      cbn. rewrite Hg, list_lookup_alter_eq, Hu. reflexivity.
  - cbv zeta. repeat split; try (vm_compute; reflexivity).
    apply (bool_decide_unpack _). vm_compute. exact I.
Qed.

(** ** Spawner *)

Lemma activateRandomCube_fires r s :
  gameOver s = false -> (size (activeCubes s) < maxActive)%nat ->
  available s <> [] -> unitInterval r ->
  exists (k : nat) (cube : nat),
    randomIndex r (length (available s)) = Z.of_nat k /\
    available s !! k = Some cube /\
    activateRandomCube r s =
      {| score := score s; timeLeft := timeLeft s;
         gameOver := gameOver s; timerInterval := timerInterval s;
         cubes := alter (setIsActive true) cube (cubes s);
         activeCubes := {[cube]} ∪ activeCubes s |}.
Proof.
  intros Hg Hsz Hav Hr.
  assert (Hlen : (0 < length (available s))%nat).
  { destruct (available s); [congruence|simpl; lia]. }
  pose proof (randomIndex_range r _ Hlen Hr) as [Hlo Hhi].
  set (k := Z.to_nat (randomIndex r (length (available s)))).
  assert (Hk : randomIndex r (length (available s)) = Z.of_nat k)
    by (unfold k; lia).
  destruct (lookup_lt_is_Some_2 (available s) k) as [cube Hc]; [lia|].
  exists k, cube. split; [exact Hk|]. split; [exact Hc|].
  unfold activateRandomCube. rewrite Hg.
  destruct (Nat.leb_spec maxActive (size (activeCubes s))); [lia|].
  destruct (available s) as [|a av] eqn:Ea; [congruence|]. cbv zeta.
  destruct (Z.ltb_spec (randomIndex r (length (a :: av))) 0); [lia|].
  fold k. now rewrite Hc.
Qed.

Lemma size_add_fresh (A : gset nat) (c : nat) :
  c ∉ A -> size ({[c]} ∪ A) = S (size A).
Proof.
  intros Hc. rewrite size_union, size_singleton; [reflexivity|].
  now apply disjoint_singleton_l.
Qed.

(** C7: during play, with flags and active set in agreement and
    [Math.random()] a binary64 number [r] of [0, 1).  The cubes the spawner
    chooses among are exactly the targets whose flag is clear, each listed
    once.  The one chosen sits at position [floor (fl (r * n))] of that list
    of [n], whatever the cube there is; every position can be drawn; and
    position [k] is drawn for every [r] with
    [k <= r * n < (k + 1) * (1 - 2^-53)] and only for [r] with
    [k * (1 - 2^-53) <= r * n < k + 1]: each candidate has the share
    [[k/n, (k+1)/n)] of the unit interval, up to the one rounding of the
    product.  With room in the active set and a target to choose, the tick
    sets the chosen flag, adds the target to the active set, which grows by
    exactly 1, and changes nothing else; with the set full or nothing to
    choose it does nothing.  (An array has fewer than 2^32 elements, so the
    bounds on [n] always hold.) *)
Theorem spawner_tick_spec (s : state) (r : Q) :
  flagsMatchSet s -> gameOver s = false -> unitInterval r ->
  (NoDup (available s) /\
   forall c, c ∈ available s <-> flagOf s c = Some false) /\
  ((Z.of_nat (length (available s)) <= 2 ^ 53)%Z ->
   forall k : nat,
     ((inject_Z (Z.of_nat k) <= r * inject_Z (Z.of_nat (length (available s))))%Q ->
      (r * inject_Z (Z.of_nat (length (available s)))
       < inject_Z (Z.of_nat k + 1) * (1 - pow2 (-53)))%Q ->
      randomIndex r (length (available s)) = Z.of_nat k) /\
     (randomIndex r (length (available s)) = Z.of_nat k ->
      (inject_Z (Z.of_nat k) * (1 - pow2 (-53))
       <= r * inject_Z (Z.of_nat (length (available s))))%Q /\
      (r * inject_Z (Z.of_nat (length (available s)))
       < inject_Z (Z.of_nat k + 1))%Q)) /\
  ((Z.of_nat (length (available s)) <= 2 ^ 52)%Z ->
   forall c, c ∈ available s ->
     exists r', unitInterval r' /\
       available s !! Z.to_nat (randomIndex r' (length (available s))) = Some c) /\
  ((size (activeCubes s) < maxActive)%nat -> available s <> [] ->
   exists (k : nat) (cube : nat),
     randomIndex r (length (available s)) = Z.of_nat k /\
     available s !! k = Some cube /\
     flagOf s cube = Some false /\
     spawnInterval r s =
       {| score := score s; timeLeft := timeLeft s;
          gameOver := gameOver s; timerInterval := timerInterval s;
          cubes := alter (setIsActive true) cube (cubes s);
          activeCubes := {[cube]} ∪ activeCubes s |} /\
     flagOf (spawnInterval r s) cube = Some true /\
     (forall c, c <> cube -> cubes (spawnInterval r s) !! c = cubes s !! c) /\
     size (activeCubes (spawnInterval r s)) = S (size (activeCubes s))) /\
  ((maxActive <= size (activeCubes s))%nat \/ available s = [] ->
   spawnInterval r s = s).
Proof.
  intros Hinv Hg Hr. split; [|split; [|split; [|split]]].
  - split; [|intros c; now apply flagsMatchSet_available].
    unfold available. apply NoDup_filter, NoDup_seq.
  - intros Hn k. destruct Hr as (H0 & H1 & _).
    destruct (available s) as [|a av] eqn:Ea.
    + cbn [length].
      assert (E0 : (r * inject_Z (Z.of_nat 0) == 0)%Q) by (cbn; ring).
      assert (Ei : randomIndex r 0 = 0%Z).
      { unfold randomIndex. rewrite (Qfloor_comp _ _ (roundBinary64_comp _ _ E0)).
        reflexivity. }
      rewrite Ei. split.
      * intros Hlo _. rewrite E0 in Hlo.
        change 0%Q with (inject_Z 0) in Hlo. rewrite <- Zle_Qle in Hlo. lia.
      * intros Hk. assert (k = 0%nat) by lia. subst k. rewrite E0.
        split; [apply Qle_lteq; right; ring|reflexivity].
    + assert (Hpos : (0 < length (a :: av))%nat) by (cbn; lia).
      destruct (randomIndex_share r (length (a :: av)) (Z.of_nat k) H0 H1 Hpos Hn)
        as [Hto Hfrom].
      split; [intros Hlo Hhi; apply Hto; [lia|exact Hlo|exact Hhi]|exact Hfrom].
  - intros Hn c Hc. apply list_elem_of_lookup in Hc as [k Hk].
    assert (Hlt : (k < length (available s))%nat) by now apply lookup_lt_Some in Hk.
    destruct (randomIndex_onto _ k Hlt Hn) as (r' & Hr' & Hidx).
    exists r'. split; [exact Hr'|]. now rewrite Hidx, Nat2Z.id.
  - intros Hsz Hav.
    destruct (activateRandomCube_fires r s Hg Hsz Hav Hr) as (k & cube & Hk & Hc & E).
    exists k, cube.
    assert (Hin : cube ∈ available s) by (apply list_elem_of_lookup; eauto).
    assert (Hf : flagOf s cube = Some false) by now apply flagsMatchSet_available.
    apply elem_of_available in Hin as [_ Hnot].
    rewrite spawnInterval_live, E. cbn.
    split; [exact Hk|]. split; [exact Hc|]. split; [exact Hf|].
    split; [reflexivity|]. split.
    + unfold flagOf in *. cbn. rewrite flag_alter_eq.
      destruct (cubes s !! cube); [reflexivity|discriminate].
    + split; [|now apply size_add_fresh].
      intros c Hne. apply flag_alter_ne. congruence.
  - rewrite spawnInterval_live. unfold activateRandomCube. rewrite Hg.
    intros [Hfull|Hnone].
    + destruct (Nat.leb_spec maxActive (size (activeCubes s))); [reflexivity|lia].
    + rewrite Hnone. now destruct (maxActive <=? size (activeCubes s))%nat.
Qed.

Lemma unitInterval_half : unitInterval (1 # 2).
Proof.
  split; [discriminate|]. split; [reflexivity|].
  unfold isBinary64. vm_compute. reflexivity.
Qed.

Lemma spawner_tick_spec_witness :
  (flagsMatchSet initial /\ gameOver initial = false /\ unitInterval (1 # 2)) /\
  randomIndex (1 # 2) (length (available initial)) = 12%Z /\
  size (activeCubes (spawnInterval (1 # 2) initial)) = 1%nat.
Proof.
  pose proof flagsMatchSet_initial as Hinv.
  pose proof unitInterval_half as Hr.
  split; [exact (conj Hinv (conj eq_refl Hr))|].
  split; [vm_compute; reflexivity|].
  destruct (spawner_tick_spec initial (1 # 2) Hinv eq_refl Hr)
    as (_ & _ & _ & Hgrow & _).
  destruct Hgrow as (k & cube & _ & _ & _ & _ & _ & _ & Hsize).
  - vm_compute. lia.
  - vm_compute. discriminate.
  - rewrite Hsize. reflexivity.
Defined.

(** What rounding the product does: at [r = 3190049736054101 / 2^52] and
    24 candidates the exact product lies below 17, yet the binary64
    product is 17 and the spawner takes position 17; likewise 0.6 times 5
    is 3 in binary64. *)
Lemma randomIndex_rounds_the_product :
  ((3190049736054101 # 4503599627370496) * 24 < 17)%Q /\
  randomIndex (3190049736054101 # 4503599627370496) 24 = 17%Z /\
  ((5404319552844595 # 9007199254740992) * 5 < 3)%Q /\
  randomIndex (5404319552844595 # 9007199254740992) 5 = 3%Z.
Proof. repeat split; vm_compute; reflexivity. Qed.

Lemma available_nonempty s :
  (size (activeCubes s) < length (cubes s))%nat -> available s <> [].
Proof.
  intros Hlt Hnil.
  assert (Hsub : (list_to_set (seq 0 (length (cubes s))) : gset nat) ⊆ activeCubes s).
  { intros c Hc. apply elem_of_list_to_set, elem_of_seq in Hc.
    destruct (decide (c ∈ activeCubes s)) as [|Hn]; [assumption|]. exfalso.
    assert (Hin : c ∈ available s) by (apply elem_of_available; split; [lia|assumption]).
    rewrite Hnil in Hin. now apply elem_of_nil in Hin. }
  apply subseteq_size in Hsub.
  rewrite size_list_to_set, length_seq in Hsub by apply NoDup_seq. lia.
Qed.

Lemma spawnInterval_grows r s :
  gameOver s = false -> unitInterval r ->
  (size (activeCubes s) < maxActive)%nat ->
  (size (activeCubes s) < length (cubes s))%nat ->
  gameOver (spawnInterval r s) = false /\
  length (cubes (spawnInterval r s)) = length (cubes s) /\
  size (activeCubes (spawnInterval r s)) = S (size (activeCubes s)).
Proof.
  intros Hg Hr Hsz Hlen.
  destruct (activateRandomCube_fires r s Hg Hsz (available_nonempty s Hlen) Hr)
    as (k & cube & _ & Hc & E).
  assert (Hin : cube ∈ available s) by (apply list_elem_of_lookup; eauto).
  apply elem_of_available in Hin as [_ Hnot].
  rewrite spawnInterval_live, E. cbn.
  split; [exact Hg|]. split; [apply length_alter|now apply size_add_fresh].
Qed.

(** The scenario of the spawner: ten targets, none lit.  Three ticks fill
    the active set and the fourth does nothing, whatever the random
    numbers are. *)
Lemma spawner_saturates s r1 r2 r3 r4 :
  gameOver s = false -> activeCubes s = ∅ -> length (cubes s) = 10%nat ->
  unitInterval r1 -> unitInterval r2 -> unitInterval r3 -> unitInterval r4 ->
  let s3 := spawnInterval r3 (spawnInterval r2 (spawnInterval r1 s)) in
  size (activeCubes s3) = 3%nat /\ spawnInterval r4 s3 = s3.
Proof.
  intros Hg He Hl H1 H2 H3 H4 s3.
  assert (H0 : size (activeCubes s) = 0%nat) by (rewrite He; apply size_empty).
  destruct (spawnInterval_grows r1 s Hg H1) as (Hg1 & Hl1 & Hs1);
    [unfold maxActive; lia | lia |].
  destruct (spawnInterval_grows r2 _ Hg1 H2) as (Hg2 & Hl2 & Hs2);
    [unfold maxActive; lia | lia |].
  destruct (spawnInterval_grows r3 _ Hg2 H3) as (Hg3 & Hl3 & Hs3);
    [unfold maxActive; lia | lia |].
  fold s3 in Hg3, Hl3, Hs3. split; [lia|].
  rewrite spawnInterval_live. unfold activateRandomCube. rewrite Hg3.
  destruct (Nat.leb_spec maxActive (size (activeCubes s3))); [reflexivity|].
  unfold maxActive in *. lia.
Qed.

(** ** Time and the end of the game *)

Lemma step_timeLeft e s :
  clockInv s -> (timeLeft (step e s) <= timeLeft s)%Z.
Proof.
  intros (Hon & Hoff & _). destruct e as [r| |i]; simpl.
  - rewrite spawnInterval_live.
    destruct (activateRandomCube_sameGame r s) as (_ & -> & _). lia.
  - unfold timerCallback. destruct (gameOver s) eqn:Hg; [lia|].
    specialize (Hon eq_refl).
    destruct (Z.leb_spec (timeLeft s - 1) 0); simpl; lia.
  - destruct (onClick_cases i s) as [->|(hit & u & _ & _ & _ & _ & ->)];
      simpl; lia.
Qed.

Lemma run_timeLeft es s :
  clockInv s -> (timeLeft (run es s) <= timeLeft s)%Z.
Proof.
  revert s. induction es as [|e es IH]; intros s Hinv; simpl; [lia|].
  pose proof (step_timeLeft e s Hinv).
  pose proof (IH _ (clockInv_step e s Hinv)). lia.
Qed.

(** C8: in every reachable state the time left is at least 0, and from a
    reachable state no operation, and so no sequence of operations, ever
    raises it. *)
Theorem timeLeft_never_negative_never_rises (s : state) :
  reachable s ->
  (0 <= timeLeft s)%Z /\
  (forall e, (timeLeft (step e s) <= timeLeft s)%Z) /\
  (forall es, (timeLeft (run es s) <= timeLeft s)%Z).
Proof.
  intros Hr. pose proof (reachable_clockInv s Hr) as Hinv. split.
  - destruct Hinv as (Hon & Hoff & _).
    destruct (gameOver s); [rewrite Hoff by reflexivity; lia|].
    specialize (Hon eq_refl). lia.
  - split; [intros e; now apply step_timeLeft|intros es; now apply run_timeLeft].
Qed.

Lemma timeLeft_never_negative_never_rises_witness :
  let s := step CountdownTick (step (SpawnTick 0) initial) in
  reachable s /\ (0 <= timeLeft s)%Z /\
  (timeLeft (run [CountdownTick; Click [0%nat]; CountdownTick] s) <= timeLeft s)%Z.
Proof.
  intros s.
  assert (R : reachable s) by (apply reach_step, reach_step, reach_init).
  split; [exact R|].
  destruct (timeLeft_never_negative_never_rises s R) as (H0 & _ & Hrun).
  split; [exact H0|apply Hrun].
Defined.

(** C9: in a reachable state the game is over exactly when the time left
    is 0.  An operation run when the game is over leaves it over, and so
    does any sequence of them; the only operation that ends a game in play
    is the countdown tick that takes the last second, and that tick does
    end it. *)
Theorem gameOver_one_way (s : state) :
  reachable s ->
  (gameOver s = true <-> timeLeft s = 0%Z) /\
  (forall es, gameOver s = true -> gameOver (run es s) = true) /\
  (forall e, gameOver s = false -> gameOver (step e s) = true ->
     e = CountdownTick /\ timeLeft s = 1%Z /\ timeLeft (step e s) = 0%Z) /\
  (gameOver s = false -> timeLeft s = 1%Z ->
     gameOver (step CountdownTick s) = true).
Proof.
  intros Hr. destruct (reachable_clockInv s Hr) as (Hon & Hoff & _).
  split; [|split; [|split]].
  - split; [exact Hoff|]. intros Ht.
    destruct (gameOver s); [reflexivity|]. specialize (Hon eq_refl). lia.
  - intros es Hg. now rewrite (run_over es s Hg).
  - intros e Hg Hg'. destruct e as [r| |i]; simpl in *.
    + rewrite spawnInterval_live in Hg'.
      destruct (activateRandomCube_sameGame r s) as (_ & _ & E & _). congruence.
    + unfold timerCallback in *. rewrite Hg in *. specialize (Hon eq_refl).
      destruct (Z.leb_spec (timeLeft s - 1) 0); simpl in *; [|congruence].
      repeat split; lia.
    + destruct (onClick_cases i s) as [E|(hit & u & _ & _ & _ & _ & E)];
        rewrite E in Hg'; simpl in Hg'; congruence.
  - intros Hg Ht. simpl. unfold timerCallback. now rewrite Hg, Ht.
Qed.

Lemma gameOver_one_way_witness :
  let s := run (repeat CountdownTick 29) initial in
  reachable s /\ gameOver s = false /\ timeLeft s = 1%Z /\
  gameOver (step CountdownTick s) = true.
Proof.
  intros s.
  assert (R : reachable s) by apply reachable_run.
  assert (Hg : gameOver s = false) by (vm_compute; reflexivity).
  assert (Ht : timeLeft s = 1%Z) by (vm_compute; reflexivity).
  split; [exact R|]. split; [exact Hg|]. split; [exact Ht|].
  exact (proj2 (proj2 (proj2 (gameOver_one_way s R))) Hg Ht).
Defined.

(** ** Flags and set agree *)

(** C10: a target's [isActive] flag is set exactly when the target is in
    [activeCubes].  This holds at the start, where every flag is clear and
    the set is empty; every operation preserves it; so it holds in every
    reachable state, where the cubes the spawner filters by set membership
    are therefore exactly those whose flag is clear. *)
Theorem flags_match_active_set :
  (activeCubes initial = ∅ /\
   (forall u, u ∈ cubes initial -> isActive u = false) /\
   flagsMatchSet initial) /\
  (forall s e, flagsMatchSet s -> flagsMatchSet (step e s)) /\
  (forall s, reachable s ->
     flagsMatchSet s /\
     (forall c, c ∈ available s <-> flagOf s c = Some false)).
Proof.
  split; [|split].
  - split; [reflexivity|]. split; [|apply flagsMatchSet_initial].
    intros u Hu. rewrite createCubes_ids in Hu.
    apply list_elem_of_fmap in Hu as (k & -> & _). reflexivity.
  - intros s e. apply flagsMatchSet_step.
  - intros s Hr. pose proof (reachable_flagsMatchSet s Hr) as Hinv.
    split; [exact Hinv|]. intros c. now apply flagsMatchSet_available.
Qed.

Lemma flags_match_active_set_witness :
  let s := step (Click [12%nat]) (step (SpawnTick (1 # 2)) initial) in
  reachable s /\ flagsMatchSet s /\ flagsMatchSet (step (SpawnTick 0) s).
Proof.
  intros s.
  assert (R : reachable s) by (apply reach_step, reach_step, reach_init).
  pose proof (proj1 (proj2 (proj2 flags_match_active_set) s R)) as Hinv.
  split; [exact R|]. split; [exact Hinv|].
  exact (proj1 (proj2 flags_match_active_set) s (SpawnTick 0) Hinv).
Defined.

(** * Further properties of the script *)

(** ** The overlay *)

Lemma stepUI_fst e g : fst (stepUI e g) = step e (fst g).
Proof.
  destruct g as [s d]. destruct e as [r| |i]; simpl; [reflexivity| |].
  - unfold timerCallbackUI. simpl. destruct (gameOver s) eqn:Hg; simpl;
      [symmetry; now apply timerCallback_over|reflexivity].
  - unfold onClickUI, onClick. simpl. destruct (gameOver s); [reflexivity|].
    destruct i as [|hit i]; [reflexivity|].
    destruct (cubes s !! hit) as [u|]; [|reflexivity].
    now destruct (isActive u).
Qed.

Lemma runUI_fst es g : fst (runUI es g) = run es (fst g).
Proof.
  revert g. induction es as [|e es IH]; intros g; simpl; [reflexivity|].
  now rewrite IH, stepUI_fst.
Qed.

Lemma updateUI_sameGame s s' : sameGame s s' -> updateUI s' = updateUI s.
Proof. intros (Hs & Ht & Hg & _). unfold updateUI. now rewrite Hs, Ht, Hg. Qed.

Lemma stepUI_sync e g :
  snd g = updateUI (fst g) -> snd (stepUI e g) = updateUI (fst (stepUI e g)).
Proof.
  destruct g as [s d]. simpl. intros ->. destruct e as [r| |i]; simpl.
  - rewrite spawnInterval_live. symmetry.
    apply updateUI_sameGame, activateRandomCube_sameGame.
  - unfold timerCallbackUI. simpl. now destruct (gameOver s).
  - unfold onClickUI. simpl. destruct (gameOver s); [reflexivity|].
    destruct i as [|hit i]; [reflexivity|].
    destruct (cubes s !! hit) as [u|]; [|reflexivity].
    now destruct (isActive u).
Qed.

Lemma runUI_sync es : snd (runUI es initialUI) = updateUI (run es initial).
Proof.
  assert (G : forall g, snd g = updateUI (fst g) ->
                        snd (runUI es g) = updateUI (fst (runUI es g))).
  { induction es as [|e es IH]; intros g Hg; simpl; [exact Hg|].
    now apply IH, stepUI_sync. }
  rewrite (G initialUI eq_refl). now rewrite runUI_fst.
Qed.

(** X1: the overlay never goes stale.  After any sequence of spawner
    ticks, countdown ticks and clicks, the three texts on screen are those
    [updateUI] would write for the current score, time left and game-over
    flag, although the spawner and missed clicks never call [updateUI];
    and threading the overlay through does not change the game itself. *)
Theorem overlay_in_sync (es : list event) :
  snd (runUI es initialUI) = updateUI (fst (runUI es initialUI)) /\
  fst (runUI es initialUI) = run es initial.
Proof.
  split; [|apply runUI_fst]. rewrite runUI_fst. apply runUI_sync.
Qed.

Lemma to_int_not_nil (n : Z) :
  Z.to_int n <> Decimal.Pos Decimal.Nil /\ Z.to_int n <> Decimal.Neg Decimal.Nil.
Proof.
  split; intros E; pose proof (of_to n) as H; rewrite E in H;
    simpl in H; subst n; discriminate E.
Qed.

Lemma numberToString_inj (a b : Z) :
  numberToString a = numberToString b -> a = b.
Proof.
  unfold numberToString. intros E.
  destruct (to_int_not_nil a) as [Ha1 Ha2], (to_int_not_nil b) as [Hb1 Hb2].
  pose proof (NilZero.isi _ Ha1 Ha2) as Ia.
  pose proof (NilZero.isi _ Hb1 Hb2) as Ib.
  rewrite E, Ib in Ia. injection Ia as Ia.
  rewrite <- (of_to a), <- (of_to b). now rewrite Ia.
Qed.

Lemma string_length_app (x t : string) :
  String.length (x +:+ t) = (String.length x + String.length t)%nat.
Proof. induction x as [|c x IH]; simpl; [reflexivity|now rewrite IH]. Qed.

Lemma append_inj_suffix (x y t : string) : x +:+ t = y +:+ t -> x = y.
Proof.
  intros E.
  assert (L : String.length x = String.length y).
  { apply (f_equal String.length) in E.
    rewrite !string_length_app in E. lia. }
  revert y E L. induction x as [|c x IH]; intros [|c' y] E L;
    simpl in *; try discriminate; [reflexivity|].
  injection E as -> E. f_equal. apply IH; [exact E|lia].
Qed.

(** X2: the overlay determines what it shows.  Two states with the same
    three texts have the same score, the same time left and the same
    game-over flag: decimal rendering loses nothing. *)
Theorem overlay_determines_state (s1 s2 : state) :
  updateUI s1 = updateUI s2 ->
  score s1 = score s2 /\ timeLeft s1 = timeLeft s2 /\ gameOver s1 = gameOver s2.
Proof.
  unfold updateUI. intros E. injection E as Es Et Em.
  split; [now apply numberToString_inj|]. split.
  - apply numberToString_inj.
    change (numberToString (timeLeft s1) +:+ "s"
            = numberToString (timeLeft s2) +:+ "s") in Et.
    now apply append_inj_suffix in Et.
  - destruct (gameOver s1), (gameOver s2); (reflexivity || discriminate).
Qed.

Lemma overlay_determines_state_witness :
  let s1 := step CountdownTick (step (SpawnTick 0) initial) in
  let s2 := step (SpawnTick (1 # 2)) (step CountdownTick initial) in
  updateUI s1 = updateUI s2 /\ timeLeft s1 = timeLeft s2.
Proof.
  intros s1 s2.
  assert (E : updateUI s1 = updateUI s2) by (vm_compute; reflexivity).
  split; [exact E|].
  exact (proj1 (proj2 (overlay_determines_state s1 s2 E))).
Defined.

(** ** The palette *)

Lemma colors_length : length colors = 5%nat.
Proof. reflexivity. Qed.

Lemma colors_NoDup : NoDup colors.
Proof. apply (bool_decide_unpack _). vm_compute. exact I. Qed.

(** Rounding never takes a number below a small positive integer under
    it. *)
Lemma roundBinary64_ge_int (x : Q) (j : Z) :
  (0 < j < 2 ^ 53)%Z -> (inject_Z j <= x)%Q -> (inject_Z j <= roundBinary64 x)%Q.
Proof.
  intros Hj Hx.
  assert (Hj0 : (0 < inject_Z j)%Q)
    by (change 0%Q with (inject_Z 0); rewrite <- Zlt_Qlt; lia).
  assert (Hx0 : (0 < x)%Q) by (eapply Qlt_le_trans; eauto).
  destruct (Qlt_le_dec x (pow2 53)) as [Hlt|Hge].
  - apply (roundBinary64_int x j); [|exact Hlt|exact Hx].
    apply Qlt_trans with 0%Q; [reflexivity|exact Hx0].
  - rewrite (roundBinary64_pos x Hx0).
    destruct (roundPositive_normal x) as [Hlo _].
    { apply Qle_trans with (pow2 53); [apply pow2_le; lia|exact Hge]. }
    apply Qle_trans with (x * (1 - pow2 (-53)))%Q; [|exact Hlo].
    apply Qle_trans with (pow2 53 * (1 - pow2 (-53)))%Q.
    + assert (E : (pow2 53 * (1 - pow2 (-53)) == inject_Z (2 ^ 53 - 1))%Q)
        by reflexivity.
      rewrite E, <- Zle_Qle. lia.
    + apply Qmult_le_compat_r; [exact Hge|discriminate].
Qed.

(** X3: with [Math.random()] a binary64 number [r] of [0, 1),
    [randomColor] returns a colour of the palette, the one at index
    [floor (fl (r * 5))]; whatever it returns is in the palette, and every
    colour of the palette is returned for some [r].  The colour at index
    [k] is returned for every [r] with [k <= r * 5 < (k + 1) * (1 - 2^-53)]
    and only for [r] with [k * (1 - 2^-53) <= r * 5 < k + 1]: the fifths of
    the unit interval, up to the rounding of the product.  A number of 1 or
    more would read past the array and give [undefined]. *)
Theorem randomColor_defined (r : Q) :
  (unitInterval r -> is_Some (randomColor r)) /\
  (forall c, randomColor r = Some c -> c ∈ colors) /\
  (forall c, c ∈ colors -> exists r', unitInterval r' /\ randomColor r' = Some c) /\
  ((0 <= r)%Q -> (r < 1)%Q ->
   forall (k : nat) c, colors !! k = Some c ->
     ((inject_Z (Z.of_nat k) <= r * 5)%Q ->
      (r * 5 < inject_Z (Z.of_nat k + 1) * (1 - pow2 (-53)))%Q ->
      randomColor r = Some c) /\
     (randomColor r = Some c ->
      (inject_Z (Z.of_nat k) * (1 - pow2 (-53)) <= r * 5)%Q /\
      (r * 5 < inject_Z (Z.of_nat k + 1))%Q)) /\
  ((1 <= r)%Q -> randomColor r = None).
Proof.
  unfold randomColor. rewrite colors_length.
  split; [|split; [|split; [|split]]].
  - intros Hr.
    destruct (randomIndex_range r 5 ltac:(lia) Hr) as [Hlo Hhi].
    destruct (Z.ltb_spec (randomIndex r 5) 0); [lia|].
    apply lookup_lt_is_Some. rewrite colors_length. lia.
  - intros c Hc. destruct (randomIndex r 5 <? 0)%Z; [discriminate|].
    apply list_elem_of_lookup. eauto.
  - intros c Hc. apply list_elem_of_lookup in Hc as [k Hk].
    assert (Hlt : (k < 5)%nat)
      by (apply lookup_lt_Some in Hk; now rewrite colors_length in Hk).
    destruct (randomIndex_onto 5 k Hlt ltac:(lia)) as (r' & Hr' & Hidx).
    exists r'. split; [exact Hr'|]. rewrite Hidx.
    destruct (Z.ltb_spec (Z.of_nat k) 0); [lia|]. now rewrite Nat2Z.id.
  - intros H0 H1 k c Hk.
    assert (Hlt : (k < 5)%nat)
      by (apply lookup_lt_Some in Hk; now rewrite colors_length in Hk).
    destruct (randomIndex_share r 5 (Z.of_nat k) H0 H1 ltac:(lia) ltac:(lia))
      as [Hto Hfrom].
    change (inject_Z (Z.of_nat 5)) with 5%Q in Hto, Hfrom.
    split.
    + intros Hlo Hhi. rewrite (Hto ltac:(lia) Hlo Hhi).
      destruct (Z.ltb_spec (Z.of_nat k) 0); [lia|]. now rewrite Nat2Z.id.
    + intros Hc. apply Hfrom.
      destruct (Z.ltb_spec (randomIndex r 5) 0); [discriminate|].
      assert (E : Z.to_nat (randomIndex r 5) = k)
        by exact (NoDup_lookup _ _ _ _ colors_NoDup Hc Hk).
      lia.
  - intros Hr.
    assert (H5 : (5 <= randomIndex r 5)%Z).
    { unfold randomIndex. rewrite <- (Qfloor_Z 5). apply Qfloor_resp_le.
      apply (roundBinary64_ge_int _ 5); [lia|].
      change (inject_Z 5) with (1 * 5)%Q. change (inject_Z (Z.of_nat 5)) with 5%Q.
      apply Qmult_le_compat_r; [exact Hr|discriminate]. }
    destruct (Z.ltb_spec (randomIndex r 5) 0); [reflexivity|].
    apply lookup_ge_None. rewrite colors_length. lia.
Qed.

Lemma randomColor_defined_witness :
  unitInterval (1 # 2) /\ randomColor (1 # 2) = Some 0x6bffb0%Z /\
  (0x6bffb0%Z ∈ colors).
Proof.
  split; [exact unitInterval_half|].
  assert (E : randomColor (1 # 2) = Some 0x6bffb0%Z).
  { destruct (randomColor_defined (1 # 2)) as (_ & _ & _ & Hshare & _).
    apply (proj1 (Hshare ltac:(discriminate) ltac:(reflexivity) 2%nat _ eq_refl));
      vm_compute; [discriminate|reflexivity]. }
  split; [exact E|].
  exact (proj1 (proj2 (randomColor_defined (1 # 2))) _ E).
Defined.

(** ** The grid *)

Section Grid.
Variables (nrows ncols : nat) (sp : Q).

(** The mesh the loop body builds at row [i], column [j], when the
    counter stands at [c]. *)
Let meshAt (i j : nat) (c : Z) : mesh :=
  {| position := cubePosition nrows ncols sp i j;
     userDataOf := {| id := c; isActive := false |} |}.

Lemma inner_loop (i : nat) (m a : nat) (c : Z) (l : list mesh) :
  foldl (fun st' j => pushMesh nrows ncols sp i j st') (c, l) (seq a m)
  = ((c + Z.of_nat m)%Z,
     l ++ map (fun j => meshAt i j (c + (Z.of_nat j - Z.of_nat a))) (seq a m)).
Proof.
  revert a c l. induction m as [|m IH]; intros a c l.
  - simpl. f_equal; [lia|now rewrite app_nil_r].
  - cbn [seq foldl]. unfold pushMesh at 2. cbn [fst snd].
    rewrite IH. f_equal; [lia|]. rewrite <- app_assoc. f_equal. cbn.
    f_equal.
    + unfold meshAt. do 2 f_equal. lia.
    + apply map_ext. intros j. unfold meshAt. do 2 f_equal. lia.
Qed.

Lemma outer_loop (n : nat) :
  foldl (fun st i =>
           foldl (fun st' j => pushMesh nrows ncols sp i j st') st (seq 0 ncols))
        (1%Z, []) (seq 0 n)
  = ((1 + Z.of_nat (n * ncols))%Z,
     map (fun k => meshAt (k / ncols) (k mod ncols) (Z.of_nat k + 1))
         (seq 0 (n * ncols))).
Proof.
  induction n as [|n IH]; [reflexivity|].
  rewrite seq_S, foldl_app, IH. cbn [foldl Nat.add].
  rewrite inner_loop. f_equal; [lia|].
  replace (S n * ncols)%nat with (n * ncols + ncols)%nat by lia.
  rewrite seq_app, map_app. f_equal. cbn [Nat.add].
  replace (seq (n * ncols) ncols)
    with (map (Nat.add (n * ncols)) (seq 0 ncols))
    by (change (map ?f ?l) with (f <$> l); rewrite fmap_add_seq;
        f_equal; lia).
  rewrite map_map.
  apply map_ext_in. intros j Hj. apply in_seq in Hj.
  assert (Hc : ncols <> 0%nat) by lia.
  replace ((n * ncols + j) / ncols)%nat with n
    by (symmetry; rewrite Nat.add_comm, Nat.div_add by exact Hc;
        rewrite Nat.div_small by lia; reflexivity).
  replace ((n * ncols + j) mod ncols)%nat with j
    by (symmetry; rewrite Nat.add_comm, Nat.Div0.mod_add;
        apply Nat.mod_small; lia).
  unfold meshAt. do 2 f_equal. lia.
Qed.

Lemma createMeshesFor_closed :
  createMeshesFor nrows ncols sp
  = ((1 + Z.of_nat (nrows * ncols))%Z,
     map (fun k => meshAt (k / ncols) (k mod ncols) (Z.of_nat k + 1))
         (seq 0 (nrows * ncols))).
Proof. apply outer_loop. Qed.

(** X4: the creation loop, for any grid dimensions.  It makes
    [nrows * ncols] meshes and leaves the counter one past that; the mesh
    of row [i], column [j] sits at index [i * ncols + j] of [cubes], at
    the position the formula gives for [(i, j)], with id
    [i * ncols + j + 1] and its flag clear; so the ids are 1, 2, ... in
    array order, all different. *)
Theorem grid_layout :
  fst (createMeshesFor nrows ncols sp) = (1 + Z.of_nat (nrows * ncols))%Z /\
  length (snd (createMeshesFor nrows ncols sp)) = (nrows * ncols)%nat /\
  (forall i j, (i < nrows)%nat -> (j < ncols)%nat ->
     snd (createMeshesFor nrows ncols sp) !! (i * ncols + j)%nat
     = Some {| position := cubePosition nrows ncols sp i j;
               userDataOf := {| id := Z.of_nat (i * ncols + j) + 1;
                                isActive := false |} |}) /\
  map (fun m => id (userDataOf m)) (snd (createMeshesFor nrows ncols sp))
  = map (fun k => (Z.of_nat k + 1)%Z) (seq 0 (nrows * ncols)) /\
  NoDup (map (fun m => id (userDataOf m)) (snd (createMeshesFor nrows ncols sp))).
Proof.
  rewrite createMeshesFor_closed. cbn [fst snd].
  assert (Hids :
    map (fun m => id (userDataOf m))
        (map (fun k => meshAt (k / ncols) (k mod ncols) (Z.of_nat k + 1))
             (seq 0 (nrows * ncols)))
    = map (fun k => (Z.of_nat k + 1)%Z) (seq 0 (nrows * ncols))).
  { rewrite map_map. reflexivity. }
  split; [reflexivity|]. split; [now rewrite length_map, length_seq|].
  split; [|split; [exact Hids|]].
  - intros i j Hi Hj.
    assert (Hc : ncols <> 0%nat) by lia.
    assert (Hlt : (i * ncols + j < nrows * ncols)%nat) by nia.
    change (map ?f ?l) with (f <$> l). rewrite list_lookup_fmap.
    rewrite lookup_seq_lt by exact Hlt. cbn.
    replace ((i * ncols + j) / ncols)%nat with i
      by (symmetry; rewrite Nat.add_comm, Nat.div_add by exact Hc;
          rewrite Nat.div_small by lia; reflexivity).
    replace ((i * ncols + j) mod ncols)%nat with j
      by (symmetry; rewrite Nat.add_comm, Nat.Div0.mod_add;
          apply Nat.mod_small; lia).
    reflexivity.
  - rewrite Hids. change (map ?f ?l) with (f <$> l).
    apply NoDup_fmap_2; [|apply NoDup_seq].
    intros a b Hab. lia.
Qed.
End Grid.

Lemma grid_layout_witness :
  snd createMeshes !! 15%nat
  = Some {| position := cubePosition rows cols spacing 2 3;
            userDataOf := {| id := 16; isActive := false |} |}.
Proof.
  destruct (grid_layout rows cols spacing) as (_ & _ & Hat & _).
  exact (Hat 2%nat 3%nat ltac:(unfold rows; lia) ltac:(unfold cols; lia)).
Defined.

(** The model of the claims keeps only the [userData] of each mesh. *)
Lemma createMeshes_userData :
  map userDataOf (snd createMeshes) = snd createCubes.
Proof. reflexivity. Qed.

(** ** What the game never changes *)

Lemma id_alter b c (cs : list userData) :
  id <$> alter (setIsActive b) c cs = id <$> cs.
Proof.
  apply list_eq. intros k. rewrite !list_lookup_fmap.
  destruct (decide (c = k)) as [->|Hne].
  - rewrite list_lookup_alter_eq. now destruct (cs !! k).
  - now rewrite list_lookup_alter_ne.
Qed.

Lemma step_ids e s : id <$> cubes (step e s) = id <$> cubes s.
Proof.
  destruct e as [r| |i]; simpl.
  - rewrite spawnInterval_live.
    destruct (activateRandomCube_cases r s) as [->|(k & cube & _ & _ & _ & _ & ->)];
      [reflexivity|apply id_alter].
  - unfold timerCallback. destruct (gameOver s); [reflexivity|].
    now destruct (timeLeft s - 1 <=? 0)%Z.
  - destruct (onClick_cases i s) as [->|(hit & u & _ & _ & _ & _ & ->)];
      [reflexivity|apply id_alter].
Qed.

Lemma reachable_ids s : reachable s -> id <$> cubes s = Z.of_nat <$> seq 1 24.
Proof. induction 1 as [|s e _ IH]; [reflexivity|now rewrite step_ids]. Qed.

Lemma reachable_cubes_length s : reachable s -> length (cubes s) = 24%nat.
Proof.
  intros Hr. pose proof (reachable_ids s Hr) as Hids.
  apply (f_equal length) in Hids. now rewrite !length_fmap in Hids.
Qed.

(** X5: targets are never created, destroyed or renumbered.  In every
    reachable state there are 24 cubes carrying the ids 1 to 24 in array
    order, and every member of [activeCubes] is one of them. *)
Theorem cubes_are_stable (s : state) :
  reachable s ->
  id <$> cubes s = Z.of_nat <$> seq 1 24 /\
  length (cubes s) = 24%nat /\
  (forall c, c ∈ activeCubes s -> (c < 24)%nat).
Proof.
  intros Hr. split; [now apply reachable_ids|].
  split; [now apply reachable_cubes_length|].
  intros c Hc. apply (reachable_flagsMatchSet s Hr) in Hc.
  apply flagOf_lt in Hc. rewrite (reachable_cubes_length s Hr) in Hc. exact Hc.
Qed.

Lemma cubes_are_stable_witness :
  let s := step (Click [0%nat]) (step (SpawnTick 0) initial) in
  reachable s /\ length (cubes s) = 24%nat.
Proof.
  intros s.
  assert (R : reachable s) by (apply reach_step, reach_step, reach_init).
  split; [exact R|]. exact (proj1 (proj2 (cubes_are_stable s R))).
Defined.

(** X6: a lit cube never goes out by itself.  Whatever the event, a cube
    that is in [activeCubes] before it is still there afterwards, with its
    flag as it was, unless the event is a click whose picked target is
    that very cube: there is no expiry. *)
Theorem active_until_clicked (s : state) (e : event) (c : nat) :
  c ∈ activeCubes s ->
  (c ∈ activeCubes (step e s) /\ flagOf (step e s) c = flagOf s c) \/
  (exists intersects, e = Click intersects /\ pickedTarget intersects = Some c).
Proof.
  intros Hc. destruct e as [r| |i]; simpl.
  - left. rewrite spawnInterval_live.
    destruct (activateRandomCube_cases r s)
      as [->|(k & cube & _ & _ & _ & Hk & ->)]; [now split|].
    unfold flagOf. cbn. split; [apply elem_of_union; now right|].
    assert (Hin : cube ∈ available s) by (apply list_elem_of_lookup; eauto).
    apply elem_of_available in Hin as [_ Hnot].
    rewrite flag_alter_ne; [reflexivity|]. intros ->. contradiction.
  - left. unfold timerCallback. destruct (gameOver s); [now split|].
    destruct (timeLeft s - 1 <=? 0)%Z; now split.
  - destruct (onClick_cases i s) as [->|(hit & u & _ & Hp & _ & _ & ->)];
      [left; now split|].
    destruct (decide (hit = c)) as [->|Hne]; [right; now exists i|].
    left. unfold flagOf. cbn. split.
    + rewrite elem_of_difference, elem_of_singleton. split; [exact Hc|congruence].
    + now rewrite flag_alter_ne.
Qed.

Lemma active_until_clicked_witness :
  let s := step (SpawnTick 0) initial in
  (0%nat ∈ activeCubes s) /\
  (0%nat ∈ activeCubes (step CountdownTick s)).
Proof.
  intros s.
  assert (Hc : 0%nat ∈ activeCubes s)
    by (apply (bool_decide_unpack _); vm_compute; exact I).
  split; [exact Hc|].
  destruct (active_until_clicked s CountdownTick 0%nat Hc)
    as [[H _]|(i & Hi & _)]; [exact H|discriminate Hi].
Defined.

(** ** The clock and the score along a trace *)

Lemma countdownTicks_cons e es :
  countdownTicks (e :: es)
  = ((if isCountdownTick e then 1 else 0) + countdownTicks es)%Z.
Proof.
  unfold countdownTicks. rewrite filter_cons.
  case_decide as H; [rewrite H|destruct (isCountdownTick e); [congruence|]];
    cbn [length]; lia.
Qed.

Lemma spawnTicks_cons e es :
  spawnTicks (e :: es) = ((if isSpawnTick e then 1 else 0) + spawnTicks es)%Z.
Proof.
  unfold spawnTicks. rewrite filter_cons.
  case_decide as H; [rewrite H|destruct (isSpawnTick e); [congruence|]];
    cbn [length]; lia.
Qed.

Lemma clicks_cons e es :
  clicks (e :: es) = ((if isClick e then 1 else 0) + clicks es)%Z.
Proof.
  unfold clicks. rewrite filter_cons.
  case_decide as H; [rewrite H|destruct (isClick e); [congruence|]];
    cbn [length]; lia.
Qed.

Lemma step_clock e s :
  clockInv s ->
  timeLeft (step e s)
  = Z.max 0 (timeLeft s - (if isCountdownTick e then 1 else 0)).
Proof.
  intros (Hon & Hoff & _). destruct e as [r| |i]; simpl.
  - rewrite spawnInterval_live.
    destruct (activateRandomCube_sameGame r s) as (_ & -> & _).
    destruct (gameOver s); [rewrite Hoff by reflexivity; lia|].
    specialize (Hon eq_refl). lia.
  - unfold timerCallback. destruct (gameOver s);
      [rewrite Hoff by reflexivity; lia|].
    specialize (Hon eq_refl).
    destruct (Z.leb_spec (timeLeft s - 1) 0); simpl; lia.
  - assert (E : timeLeft (onClick i s) = timeLeft s).
    { destruct (onClick_cases i s) as [->|(hit & u & _ & _ & _ & _ & ->)];
        reflexivity. }
    rewrite E. destruct (gameOver s); [rewrite Hoff by reflexivity; lia|].
    specialize (Hon eq_refl). lia.
Qed.

Lemma run_clock es s :
  clockInv s -> timeLeft (run es s) = Z.max 0 (timeLeft s - countdownTicks es).
Proof.
  revert s. induction es as [|e es IH]; intros s Hinv.
  - destruct Hinv as (Hon & Hoff & _). unfold countdownTicks. simpl.
    destruct (gameOver s); [rewrite Hoff by reflexivity; lia|].
    specialize (Hon eq_refl). lia.
  - simpl. rewrite (IH _ (clockInv_step e s Hinv)), (step_clock e s Hinv).
    rewrite countdownTicks_cons.
    assert (0 <= countdownTicks es)%Z by (unfold countdownTicks; lia).
    destruct (isCountdownTick e); lia.
Qed.

(** X7: the game lasts exactly thirty countdown ticks, whatever else
    happens.  After any trace, the time left is 30 minus the number of
    countdown ticks in it, never below 0, and the game is over exactly
    when the trace holds at least thirty of them, which is also exactly
    when the countdown interval has been cleared; spawner ticks and clicks
    neither shorten nor prolong it. *)
Theorem game_lasts_thirty_ticks (es : list event) :
  timeLeft (run es initial) = Z.max 0 (30 - countdownTicks es) /\
  (gameOver (run es initial) = true <-> (30 <= countdownTicks es)%Z) /\
  (timerInterval (run es initial) = false <-> (30 <= countdownTicks es)%Z).
Proof.
  assert (Ht : timeLeft (run es initial) = Z.max 0 (30 - countdownTicks es)).
  { rewrite run_clock; [reflexivity|apply reachable_clockInv, reach_init]. }
  destruct (reachable_clockInv _ (reachable_run es)) as (Hon & Hoff & Hsch).
  assert (Hover : gameOver (run es initial) = true <-> (30 <= countdownTicks es)%Z).
  { split.
    - intros Hg. specialize (Hoff Hg). lia.
    - intros Hn. destruct (gameOver (run es initial)); [reflexivity|].
      specialize (Hon eq_refl). lia. }
  split; [exact Ht|]. split; [exact Hover|].
  rewrite <- Hover, Hsch. now destruct (gameOver (run es initial)).
Qed.

Lemma step_score_bounds e s :
  (score s <= score (step e s) <= score s + (if isClick e then 1 else 0))%Z.
Proof.
  rewrite step_score. destruct e as [r| |i]; simpl;
    try (rewrite andb_false_r; lia).
  destruct (negb (gameOver s) && _); lia.
Qed.

(** X8: the score never goes down, and a trace cannot score more points
    than it has clicks: from any state, the score after a trace lies
    between the score before it and that score plus the number of click
    events in the trace. *)
Theorem score_monotone_bounded_by_clicks (es : list event) (s : state) :
  (score s <= score (run es s) <= score s + clicks es)%Z.
Proof.
  revert s. induction es as [|e es IH]; intros s.
  - unfold clicks. simpl. lia.
  - simpl. rewrite clicks_cons.
    pose proof (step_score_bounds e s). pose proof (IH (step e s)). lia.
Qed.

Lemma size_remove_member (A : gset nat) (c : nat) :
  c ∈ A -> S (size (A ∖ {[c]})) = size A.
Proof.
  intros Hc.
  assert (Hsub : ({[c]} : gset nat) ⊆ A) by now apply singleton_subseteq_l.
  pose proof (size_difference A {[c]} Hsub) as Hd.
  pose proof (subseteq_size _ _ Hsub) as Hle.
  rewrite size_singleton in Hd, Hle. lia.
Qed.

Lemma step_lit_budget e s :
  flagsMatchSet s ->
  (score (step e s) + Z.of_nat (size (activeCubes (step e s)))
   <= score s + Z.of_nat (size (activeCubes s))
      + (if isSpawnTick e then 1 else 0))%Z.
Proof.
  intros Hinv. destruct e as [r| |i]; simpl.
  - rewrite spawnInterval_live.
    destruct (activateRandomCube_cases r s)
      as [->|(k & cube & _ & _ & _ & _ & ->)]; [lia|].
    cbn. rewrite size_union_alt, size_singleton.
    pose proof (subseteq_size _ _ (remove_subseteq (activeCubes s) cube)). lia.
  - unfold timerCallback. destruct (gameOver s); [lia|].
    destruct (timeLeft s - 1 <=? 0)%Z; simpl; lia.
  - destruct (onClick_cases i s) as [->|(hit & u & _ & _ & Hu & Ha & ->)];
      [lia|].
    assert (Hin : hit ∈ activeCubes s).
    { apply Hinv. unfold flagOf. now rewrite Hu, <- Ha. }
    cbn. pose proof (size_remove_member _ _ Hin). lia.
Qed.

(** X9: points come only from cubes that were lit.  After any trace, the
    score plus the number of cubes still lit is at most the number of
    spawner ticks in the trace; in particular the score itself is. *)
Theorem score_bounded_by_spawns (es : list event) :
  (score (run es initial) + Z.of_nat (size (activeCubes (run es initial)))
   <= spawnTicks es)%Z /\
  (score (run es initial) <= spawnTicks es)%Z.
Proof.
  assert (G : forall s, flagsMatchSet s ->
    (score (run es s) + Z.of_nat (size (activeCubes (run es s)))
     <= score s + Z.of_nat (size (activeCubes s)) + spawnTicks es)%Z).
  { induction es as [|e es IH]; intros s Hinv.
    - unfold spawnTicks. simpl. lia.
    - simpl. rewrite spawnTicks_cons.
      pose proof (step_lit_budget e s Hinv).
      pose proof (IH _ (flagsMatchSet_step e s Hinv)). lia. }
  pose proof (G initial flagsMatchSet_initial) as H.
  change (score initial) with 0%Z in H.
  change (activeCubes initial) with (∅ : gset nat) in H.
  rewrite size_empty in H. split; lia.
Qed.

(** ** Spawning and hitting together *)

Lemma unlight_light (cs : list userData) (c : nat) :
  (isActive <$> cs !! c) = Some false ->
  alter (setIsActive false) c (alter (setIsActive true) c cs) = cs.
Proof.
  intros Hf. apply list_eq. intros k.
  destruct (decide (c = k)) as [->|Hne].
  - rewrite !list_lookup_alter_eq.
    destruct (cs !! k) as [[i a]|]; [|reflexivity].
    simpl in Hf. injection Hf as ->. reflexivity.
  - now rewrite !list_lookup_alter_ne.
Qed.

Lemma remove_add_fresh (A : gset nat) (c : nat) :
  c ∉ A -> ({[c]} ∪ A) ∖ {[c]} = A.
Proof.
  intros Hc. apply set_eq. intros x.
  rewrite elem_of_difference, elem_of_union, elem_of_singleton.
  split; [tauto|]. intros Hx. split; [tauto|]. intros ->. contradiction.
Qed.

(** X10: lighting a cube and hitting it undo each other.  During play,
    with flags and active set in agreement and [Math.random()] a binary64
    number [r] of [0, 1), a spawner tick lights the cube at position
    [floor (fl (r * n))] of the [n] candidates, the product rounded to
    binary64 as the code computes it; a click that picks that cube
    straight afterwards gives back the state before the tick with one more
    point: same flags, same active set, same clock. *)
Theorem spawn_then_hit (s : state) (r : Q) :
  flagsMatchSet s -> gameOver s = false -> unitInterval r ->
  (size (activeCubes s) < maxActive)%nat -> available s <> [] ->
  exists cube,
    available s !! Z.to_nat (randomIndex r (length (available s))) = Some cube /\
    (cube ∈ activeCubes (spawnInterval r s)) /\
    forall rest, onClick (cube :: rest) (spawnInterval r s) = incrScore s.
Proof.
  intros Hinv Hg Hr Hsz Hav.
  destruct (activateRandomCube_fires r s Hg Hsz Hav Hr) as (k & cube & Hk & Hc & E).
  exists cube. rewrite Hk, Nat2Z.id. split; [exact Hc|].
  assert (Hin : cube ∈ available s) by (apply list_elem_of_lookup; eauto).
  pose proof (proj1 (flagsMatchSet_available s cube Hinv) Hin) as Hf.
  apply elem_of_available in Hin as [_ Hnot].
  rewrite spawnInterval_live, E. split.
  - cbn. apply elem_of_union. left. now apply elem_of_singleton.
  - intros rest. unfold onClick. cbn. rewrite Hg, list_lookup_alter_eq.
    unfold flagOf in Hf. destruct (cubes s !! cube) as [u|] eqn:Hu;
      [|discriminate].
    cbn. unfold deactivateCube, incrScore. cbn.
    rewrite unlight_light by now rewrite Hu.
    rewrite remove_add_fresh by exact Hnot.
    now rewrite Hg.
Qed.

Lemma spawn_then_hit_witness :
  (flagsMatchSet initial /\ gameOver initial = false /\ unitInterval (1 # 2) /\
   (size (activeCubes initial) < maxActive)%nat /\ available initial <> []) /\
  onClick [12%nat] (spawnInterval (1 # 2) initial) = incrScore initial.
Proof.
  assert (Hsz : (size (activeCubes initial) < maxActive)%nat)
    by (vm_compute; lia).
  assert (Hav : available initial <> []) by (vm_compute; discriminate).
  split.
  - exact (conj flagsMatchSet_initial
             (conj eq_refl (conj unitInterval_half (conj Hsz Hav)))).
  - destruct (spawn_then_hit initial (1 # 2) flagsMatchSet_initial eq_refl
                unitInterval_half Hsz Hav) as (cube & Hc & _ & Hhit).
    assert (E : cube = 12%nat).
    { assert (H12 : available initial
                      !! Z.to_nat (randomIndex (1 # 2) (length (available initial)))
                    = Some 12%nat) by (vm_compute; reflexivity).
      congruence. }
    subst cube. apply Hhit.
Defined.

(** X11: in a real game the spawner is never short of candidates.  In a
    reachable state, during play and with fewer than [maxActive] cubes
    lit, a spawner tick always lights one more cube, whatever the random
    number in [0, 1): the grid has 24 cubes and at most 3 are lit. *)
Theorem spawner_never_starved (s : state) (r : Q) :
  reachable s -> gameOver s = false -> unitInterval r ->
  (size (activeCubes s) < maxActive)%nat ->
  available s <> [] /\
  size (activeCubes (spawnInterval r s)) = S (size (activeCubes s)).
Proof.
  intros Hreach Hg Hr Hsz.
  pose proof (reachable_cubes_length s Hreach) as Hlen.
  assert (Hroom : (size (activeCubes s) < length (cubes s))%nat)
    by (rewrite Hlen; unfold maxActive in Hsz; lia).
  split; [now apply available_nonempty|].
  now destruct (spawnInterval_grows r s Hg Hr Hsz Hroom) as (_ & _ & ->).
Qed.

Lemma spawner_never_starved_witness :
  let s := step (Click [3%nat]) (step (SpawnTick 0) initial) in
  (reachable s /\ gameOver s = false /\ unitInterval (1 # 2) /\
   (size (activeCubes s) < maxActive)%nat) /\
  size (activeCubes (spawnInterval (1 # 2) s)) = S (size (activeCubes s)).
Proof.
  intros s.
  assert (R : reachable s) by (apply reach_step, reach_step, reach_init).
  assert (Hg : gameOver s = false) by (vm_compute; reflexivity).
  assert (Hsz : (size (activeCubes s) < maxActive)%nat) by (vm_compute; lia).
  split; [exact (conj R (conj Hg (conj unitInterval_half Hsz)))|].
  exact (proj2 (spawner_never_starved s (1 # 2) R Hg unitInterval_half Hsz)).
Defined.

(** ** Where the cubes stand *)

(** X12: the layout formula, for any grid dimensions and any spacing other
    than 0.  Two grid cells with the same x and the same z are the same
    cell, so no two cubes share a place; every cube stands at height 2;
    and the cell opposite to [(i, j)] across the grid stands at the
    opposite x and z, so the grid is centred on the origin. *)
Theorem grid_geometry (nrows ncols : nat) (sp : Q) :
  ~ (sp == 0)%Q ->
  (forall i j i' j',
     (fst (fst (cubePosition nrows ncols sp i j))
      == fst (fst (cubePosition nrows ncols sp i' j')))%Q ->
     (snd (cubePosition nrows ncols sp i j)
      == snd (cubePosition nrows ncols sp i' j'))%Q ->
     i = i' /\ j = j') /\
  (forall i j, snd (fst (cubePosition nrows ncols sp i j)) = 2%Q) /\
  (forall i j, (i < nrows)%nat -> (j < ncols)%nat ->
     (fst (fst (cubePosition nrows ncols sp i j))
      + fst (fst (cubePosition nrows ncols sp (nrows - 1 - i) (ncols - 1 - j)))
      == 0)%Q /\
     (snd (cubePosition nrows ncols sp i j)
      + snd (cubePosition nrows ncols sp (nrows - 1 - i) (ncols - 1 - j))
      == 0)%Q).
Proof.
  intros Hsp. unfold cubePosition. cbn [fst snd].
  assert (Hinj : forall (a b : nat) (c : Q),
            ((inject_Z (Z.of_nat a) - c) * sp == (inject_Z (Z.of_nat b) - c) * sp)%Q ->
            a = b).
  { assert (Hcancel : forall x y c : Q, (x - c == y - c)%Q -> (x == y)%Q)
      by (clear; intros x y c E; lra).
    intros a b c E. apply (Qmult_inj_r _ _ _ Hsp), Hcancel in E.
    apply Nat2Z.inj. now apply inject_Z_injective. }
  assert (Hopp : forall (n a : nat), (a < n)%nat ->
            ((inject_Z (Z.of_nat a) - (inject_Z (Z.of_nat n) - 1) / 2) * sp
             + (inject_Z (Z.of_nat (n - 1 - a)) - (inject_Z (Z.of_nat n) - 1) / 2) * sp
             == 0)%Q).
  { intros n a Ha.
    replace (Z.of_nat (n - 1 - a)) with (Z.of_nat n + (- 1 + - Z.of_nat a))%Z by lia.
    rewrite !inject_Z_plus, inject_Z_opp. field. }
  split; [|split].
  - intros i j i' j' Ex Ez. split; [exact (Hinj _ _ _ Ez)|exact (Hinj _ _ _ Ex)].
  - reflexivity.
  - intros i j Hi Hj. split; now apply Hopp.
Qed.

Lemma grid_geometry_witness :
  ~ (spacing == 0)%Q /\
  (fst (fst (cubePosition rows cols spacing 1 2))
   + fst (fst (cubePosition rows cols spacing (rows - 1 - 1) (cols - 1 - 2)))
   == 0)%Q.
Proof.
  assert (Hsp : ~ (spacing == 0)%Q) by discriminate.
  split; [exact Hsp|].
  destruct (grid_geometry rows cols spacing Hsp) as (_ & _ & Hopp).
  exact (proj1 (Hopp 1%nat 2%nat ltac:(unfold rows; lia) ltac:(unfold cols; lia))).
Defined.

(** ** The pointer *)

Lemma isBinary64_small_int (j : Z) :
  (- 2 ^ 53 < j < 2 ^ 53)%Z -> (roundBinary64 (inject_Z j) == inject_Z j)%Q.
Proof.
  intros Hj.
  assert (H1 : (- pow2 53 < inject_Z j)%Q).
  { rewrite pow2_int by lia. rewrite <- inject_Z_opp, <- Zlt_Qlt. lia. }
  assert (H2 : (inject_Z j < pow2 53)%Q).
  { rewrite pow2_int by lia. rewrite <- Zlt_Qlt. lia. }
  destruct (roundBinary64_int (inject_Z j) j H1 H2) as [Hge Hle].
  apply Qle_antisym; [apply Hle|apply Hge]; apply Qle_refl.
Qed.

Lemma unit_quotient (a w : Q) :
  (0 < w)%Q -> (0 <= a)%Q -> (a <= w)%Q ->
  (0 <= roundBinary64 (a / w))%Q /\ (roundBinary64 (a / w) <= 1)%Q.
Proof.
  intros Hw H0 H1.
  assert (Hq0 : (0 <= a / w)%Q).
  { apply Qle_shift_div_l; [exact Hw|]. now rewrite Qmult_0_l. }
  assert (Hq1 : (a / w <= 1)%Q).
  { apply Qle_shift_div_r; [exact Hw|]. now rewrite Qmult_1_l. }
  split; [now apply roundBinary64_nonneg|].
  assert (Hb1 : (- pow2 53 < a / w)%Q)
    by (eapply Qlt_le_trans; [|exact Hq0]; reflexivity).
  assert (Hb2 : (a / w < pow2 53)%Q)
    by (eapply Qle_lt_trans; [exact Hq1|]; reflexivity).
  exact (proj2 (roundBinary64_int (a / w) 1 Hb1 Hb2) Hq1).
Qed.

Lemma round_between (x : Q) (a b : Z) :
  (- 2 ^ 53 < a)%Z -> (b < 2 ^ 53)%Z ->
  (inject_Z a <= x)%Q -> (x <= inject_Z b)%Q ->
  (inject_Z a <= roundBinary64 x)%Q /\ (roundBinary64 x <= inject_Z b)%Q.
Proof.
  intros Ha Hb Hlo Hhi.
  assert (H1 : (- pow2 53 < x)%Q).
  { eapply Qlt_le_trans; [|exact Hlo]. rewrite pow2_int by lia.
    rewrite <- inject_Z_opp, <- Zlt_Qlt. lia. }
  assert (H2 : (x < pow2 53)%Q).
  { eapply Qle_lt_trans; [exact Hhi|]. rewrite pow2_int by lia.
    rewrite <- Zlt_Qlt. lia. }
  split.
  - exact (proj1 (roundBinary64_int x a H1 H2) Hlo).
  - exact (proj2 (roundBinary64_int x b H1 H2) Hhi).
Qed.

(** X13: the pointer conversion done before raycasting, each operation
    rounded to binary64, for a canvas whose width and height are positive
    binary64 numbers (the fields of a [DOMRect] are).  A pointer over the
    canvas gets both normalised coordinates in [-1, 1]; the left edge maps
    to x = -1 and the right edge to x = 1, while the y axis is flipped:
    the top edge maps to y = 1 and the bottom edge to y = -1. *)
Theorem pointer_to_ndc (clientX clientY : Q) (rc : rect) :
  (0 < width rc)%Q -> (0 < height rc)%Q ->
  isBinary64 (width rc) -> isBinary64 (height rc) ->
  ((left rc <= clientX)%Q -> (clientX - left rc <= width rc)%Q ->
   (-1 <= fst (toNDC clientX clientY rc))%Q /\
   (fst (toNDC clientX clientY rc) <= 1)%Q) /\
  ((top rc <= clientY)%Q -> (clientY - top rc <= height rc)%Q ->
   (-1 <= snd (toNDC clientX clientY rc))%Q /\
   (snd (toNDC clientX clientY rc) <= 1)%Q) /\
  ((clientX == left rc)%Q -> (fst (toNDC clientX clientY rc) == -1)%Q) /\
  ((clientX - left rc == width rc)%Q -> (fst (toNDC clientX clientY rc) == 1)%Q) /\
  ((clientY == top rc)%Q -> (snd (toNDC clientX clientY rc) == 1)%Q) /\
  ((clientY - top rc == height rc)%Q -> (snd (toNDC clientX clientY rc) == -1)%Q).
Proof.
  intros Hw Hh Dw Dh. unfold toNDC. cbn [fst snd].
  assert (Hwz : ~ (width rc == 0)%Q)
    by (intros E; rewrite E in Hw; now apply Qlt_irrefl in Hw).
  assert (Hhz : ~ (height rc == 0)%Q)
    by (intros E; rewrite E in Hh; now apply Qlt_irrefl in Hh).
  assert (R0 : (roundBinary64 0 == 0)%Q) by reflexivity.
  assert (R1 : (roundBinary64 1 == 1)%Q) by reflexivity.
  assert (R2 : (roundBinary64 2 == 2)%Q) by reflexivity.
  assert (Rm1 : (roundBinary64 (-1) == -1)%Q) by reflexivity.
  assert (Rm2 : (roundBinary64 (-2) == -2)%Q) by reflexivity.
  assert (Axis : forall d w, (0 < w)%Q -> isBinary64 w -> (0 <= d)%Q -> (d <= w)%Q ->
            (0 <= roundBinary64 (roundBinary64 (roundBinary64 d / w) * 2))%Q /\
            (roundBinary64 (roundBinary64 (roundBinary64 d / w) * 2) <= 2)%Q).
  { intros d w Hwp Hwd Hd0 Hdw.
    pose proof (roundBinary64_nonneg d Hd0) as Ha0.
    pose proof (roundBinary64_le_double d w Hd0 Hdw Hwd) as Ha1.
    destruct (unit_quotient (roundBinary64 d) w Hwp Ha0 Ha1) as [Hq0 Hq1].
    revert Hq0 Hq1. generalize (roundBinary64 (roundBinary64 d / w)) as q.
    intros q Hq0 Hq1.
    apply (round_between (q * 2) 0 2); [lia|lia| |];
      [change (inject_Z 0) with 0%Q|change (inject_Z 2) with 2%Q];
      clear - Hq0 Hq1; lra. }
  split; [|split; [|split; [|split; [|split]]]].
  - intros H1 H2.
    destruct (Axis (clientX - left rc)%Q (width rc) Hw Dw ltac:(lra) H2) as [T0 T2].
    revert T0 T2.
    generalize (roundBinary64
                  (roundBinary64 (roundBinary64 (clientX - left rc) / width rc) * 2)) as t.
    intros t T0 T2.
    apply (round_between (t - 1) (-1) 1); [lia|lia| |];
      [change (inject_Z (-1)) with (-1)%Q|change (inject_Z 1) with 1%Q];
      clear - T0 T2; lra.
  - intros H1 H2.
    destruct (Axis (clientY - top rc)%Q (height rc) Hh Dh ltac:(lra) H2) as [T0 T2].
    assert (T : (-2 <= roundBinary64
              (- roundBinary64 (roundBinary64 (clientY - top rc) / height rc) * 2))%Q /\
            (roundBinary64
              (- roundBinary64 (roundBinary64 (clientY - top rc) / height rc) * 2) <= 0)%Q).
    { assert (Hd0 : (0 <= clientY - top rc)%Q) by (clear - H1; lra).
      pose proof (roundBinary64_nonneg _ Hd0) as Ha0.
      pose proof (roundBinary64_le_double _ _ Hd0 H2 Dh) as Ha1.
      destruct (unit_quotient _ _ Hh Ha0 Ha1) as [Hq0 Hq1].
      revert Hq0 Hq1.
      generalize (roundBinary64 (roundBinary64 (clientY - top rc) / height rc)) as q.
      intros q Hq0 Hq1.
      apply (round_between (- q * 2) (-2) 0); [lia|lia| |];
        [change (inject_Z (-2)) with (-2)%Q|change (inject_Z 0) with 0%Q];
        clear - Hq0 Hq1; lra. }
    destruct T as [Tm2 Tm0]. revert Tm2 Tm0.
    generalize (roundBinary64
                  (- roundBinary64 (roundBinary64 (clientY - top rc) / height rc) * 2)) as t.
    intros t Tm2 Tm0.
    apply (round_between (t + 1) (-1) 1); [lia|lia| |];
      [change (inject_Z (-1)) with (-1)%Q|change (inject_Z 1) with 1%Q];
      clear - Tm2 Tm0; lra.
  - intros E.
    assert (E0 : (clientX - left rc == 0)%Q) by (rewrite E; ring).
    rewrite E0, R0.
    assert (E1 : (0 / width rc == 0)%Q) by (field; exact Hwz).
    rewrite E1, R0.
    assert (E2 : (0 * 2 == 0)%Q) by ring. rewrite E2, R0.
    assert (E3 : (0 - 1 == -1)%Q) by ring. now rewrite E3, Rm1.
  - intros E. unfold isBinary64 in Dw. rewrite E, Dw.
    assert (E1 : (width rc / width rc == 1)%Q) by (field; exact Hwz).
    rewrite E1, R1.
    assert (E2 : (1 * 2 == 2)%Q) by ring. rewrite E2, R2.
    assert (E3 : (2 - 1 == 1)%Q) by ring. now rewrite E3, R1.
  - intros E.
    assert (E0 : (clientY - top rc == 0)%Q) by (rewrite E; ring).
    rewrite E0, R0.
    assert (E1 : (0 / height rc == 0)%Q) by (field; exact Hhz).
    rewrite E1, R0.
    assert (E2 : (- 0 * 2 == 0)%Q) by ring. rewrite E2, R0.
    assert (E3 : (0 + 1 == 1)%Q) by ring. now rewrite E3, R1.
  - intros E. unfold isBinary64 in Dh. rewrite E, Dh.
    assert (E1 : (height rc / height rc == 1)%Q) by (field; exact Hhz).
    rewrite E1, R1.
    assert (E2 : (- (1) * 2 == -2)%Q) by ring. rewrite E2, Rm2.
    assert (E3 : (-2 + 1 == -1)%Q) by ring. now rewrite E3, Rm1.
Qed.

Lemma pointer_to_ndc_witness :
  let rc := {| left := 10; top := 20; width := 800; height := 600 |} in
  ((0 < width rc)%Q /\ (0 < height rc)%Q /\
   isBinary64 (width rc) /\ isBinary64 (height rc)) /\
  (fst (toNDC 810 20 rc) == 1)%Q /\ (snd (toNDC 810 20 rc) == 1)%Q.
Proof.
  intros rc.
  assert (Hw : (0 < width rc)%Q) by reflexivity.
  assert (Hh : (0 < height rc)%Q) by reflexivity.
  assert (Dw : isBinary64 (width rc)) by (vm_compute; reflexivity).
  assert (Dh : isBinary64 (height rc)) by (vm_compute; reflexivity).
  split; [exact (conj Hw (conj Hh (conj Dw Dh)))|].
  destruct (pointer_to_ndc 810 20 rc Hw Hh Dw Dh) as (_ & _ & _ & Hr & Ht & _).
  split; [apply Hr; reflexivity|apply Ht; reflexivity].
Defined.

(** The bounds do not characterise the canvas: a pointer a hair to the left
    of it is rounded onto the left edge. *)
Lemma pointer_just_outside :
  let rc := {| left := 10 + pow2 (-49); top := 20; width := 800; height := 600 |} in
  (10 < left rc)%Q /\ isBinary64 (left rc) /\ (fst (toNDC 10 20 rc) == -1)%Q.
Proof.
  intros rc. split; [reflexivity|]. split; [unfold isBinary64|]; vm_compute; reflexivity.
Qed.

(** X18: three ticks fill the board, the rest wait.  From the start of
    a game, three spawner ticks light three cubes whatever their random
    numbers in [0, 1), and any number of further spawner ticks, with any
    random numbers at all, change nothing. *)
Theorem spawner_fills_then_idles (r1 r2 r3 : Q) (rs : list Q) :
  unitInterval r1 -> unitInterval r2 -> unitInterval r3 ->
  let s3 := run [SpawnTick r1; SpawnTick r2; SpawnTick r3] initial in
  size (activeCubes s3) = 3%nat /\
  run (map SpawnTick rs) s3 = s3.
Proof.
  intros H1 H2 H3 s3. unfold s3. cbn [run step].
  assert (H0 : size (activeCubes initial) = 0%nat) by apply size_empty.
  destruct (spawnInterval_grows r1 initial eq_refl H1) as (Hg1 & Hl1 & Hs1);
    [unfold maxActive; lia | rewrite cubes_initial_length; lia |].
  rewrite cubes_initial_length in Hl1.
  destruct (spawnInterval_grows r2 _ Hg1 H2) as (Hg2 & Hl2 & Hs2);
    [unfold maxActive; lia | lia |].
  destruct (spawnInterval_grows r3 _ Hg2 H3) as (Hg3 & Hl3 & Hs3);
    [unfold maxActive; lia | lia |].
  split; [lia|].
  set (t := spawnInterval r3 (spawnInterval r2 (spawnInterval r1 initial))) in *.
  assert (Hfull : forall r, spawnInterval r t = t).
  { intros r. rewrite spawnInterval_live. unfold activateRandomCube.
    rewrite Hg3.
    destruct (Nat.leb_spec maxActive (size (activeCubes t))); [reflexivity|].
    unfold maxActive in *. lia. }
  induction rs as [|r rs IH]; [reflexivity|].
  cbn [map run step]. now rewrite Hfull.
Qed.

Lemma spawner_fills_then_idles_witness :
  (unitInterval 0 /\ unitInterval (1 # 2) /\ unitInterval (7 # 8)) /\
  size (activeCubes
          (run [SpawnTick 0; SpawnTick (1 # 2); SpawnTick (7 # 8)] initial))
  = 3%nat.
Proof.
  assert (Ha : unitInterval 0)
    by (split; [discriminate|split; [reflexivity|vm_compute; reflexivity]]).
  assert (Hc : unitInterval (7 # 8))
    by (split; [discriminate|split; [reflexivity|vm_compute; reflexivity]]).
  split; [exact (conj Ha (conj unitInterval_half Hc))|].
  exact (proj1 (spawner_fills_then_idles 0 (1 # 2) (7 # 8) []
                  Ha unitInterval_half Hc)).
Defined.

(** X19: the overlay announces the end exactly at zero.  After any trace,
    the message on screen is the game-over message exactly when the time
    element reads "Time: 0s"; otherwise it is the invitation to click. *)
Theorem overlay_game_over_at_zero (es : list event) :
  let d := snd (runUI es initialUI) in
  (messageEl d = "Game over! Reload to play again." <-> timeEl d = "Time: 0s") /\
  (messageEl d <> "Game over! Reload to play again." ->
   messageEl d = "Click the glowing cubes!").
Proof.
  cbv zeta. rewrite runUI_sync.
  destruct (reachable_clockInv _ (reachable_run es)) as (Hon & Hoff & _).
  unfold updateUI. cbn [messageEl timeEl].
  destruct (gameOver (run es initial)) eqn:Hg.
  - rewrite (Hoff eq_refl). split; [split; reflexivity|]. intros H. now destruct H.
  - specialize (Hon eq_refl). split; [|reflexivity]. split; [discriminate|].
    intros E.
    change ("Time: 0s") with ("Time: " +:+ numberToString 0 +:+ "s") in E.
    injection E as E.
    change (numberToString (timeLeft (run es initial)) +:+ "s"
            = numberToString 0 +:+ "s") in E.
    apply append_inj_suffix, numberToString_inj in E. lia.
Qed.

Lemma overlay_game_over_at_zero_witness :
  let d := snd (runUI (repeat CountdownTick 30) initialUI) in
  timeEl d = "Time: 0s" /\ messageEl d = "Game over! Reload to play again.".
Proof.
  intros d. assert (E : timeEl d = "Time: 0s") by (vm_compute; reflexivity).
  split; [exact E|].
  exact (proj2 (proj1 (overlay_game_over_at_zero (repeat CountdownTick 30))) E).
Defined.

End CubeRush.

(** * The hover grid: second script of [src/3D Model Viewer/main.js]

    A grid of cubes of which the one under the pointer is enlarged and lit.
    The raycaster is again a black box that hands [animate] the list
    [intersects] of cube references, nearest first.  The idle animation of
    [animate] writes only [position.y] and [rotation.y], which nothing
    modelled here reads, and is left out.  What a mesh looks like before
    the script touches it (the scale and the emissive colour three.js
    gives a new mesh) is an argument of the creation loop. *)
Module HoverGrid.

Definition gridSize : Z := 5.
Definition spacing : Z := 4.
Definition hoverScale : Q := 12 # 10.

Record cube := {
  id : Z;                 (* userData.id *)
  info : string;          (* userData.info *)
  posX : Z;               (* position.x *)
  posZ : Z;               (* position.z *)
  scale : Q * Q * Q;      (* scale *)
  emissive : Z            (* material.emissive, as a hex colour *)
}.

(** The mesh built by the loop body at [(x, z)] when the counter stands at
    [idCounter]; [info] is [`Cube at (${x}, ${z})`]. *)
Definition newCube (scale0 : Q * Q * Q) (emissive0 : Z) (x z idCounter : Z)
  : cube :=
  {| id := idCounter;
     info := "Cube at (" +:+ CubeRush.numberToString x +:+ ", "
             +:+ CubeRush.numberToString z +:+ ")";
     posX := x * spacing; posZ := z * spacing;
     scale := scale0; emissive := emissive0 |}.

Definition pushCube (scale0 : Q * Q * Q) (emissive0 : Z) (x z : Z)
    (st : Z * list cube) : Z * list cube :=
  ((fst st + 1)%Z, snd st ++ [newCube scale0 emissive0 x z (fst st)]).

(** [for (x = -g; x <= g; x++) for (z = -g; z <= g; z++) { ... }] starting
    from [idCounter = 1]. *)
Definition createCubesFor (g : Z) (scale0 : Q * Q * Q) (emissive0 : Z)
  : Z * list cube :=
  foldl (fun st x =>
           foldl (fun st' z => pushCube scale0 emissive0 x z st') st
                 (seqZ (- g) (2 * g + 1)))
        (1%Z, []) (seqZ (- g) (2 * g + 1)).

Record state := {
  cubes : list cube;
  hoveredCube : option nat      (* let hoveredCube = null *)
}.

Definition initial (scale0 : Q * Q * Q) (emissive0 : Z) : state :=
  {| cubes := snd (createCubesFor gridSize scale0 emissive0);
     hoveredCube := None |}.

(** [c.scale.set(1, 1, 1); c.material.emissive = new THREE.Color(0x000000)] *)
Definition resetLook (c : cube) : cube :=
  {| id := id c; info := info c; posX := posX c; posZ := posZ c;
     scale := (1, 1, 1)%Q; emissive := 0x000000 |}.

(** [c.scale.set(hoverScale, hoverScale, hoverScale);
     c.material.emissive = new THREE.Color(0xffffff)] *)
Definition hoverLook (c : cube) : cube :=
  {| id := id c; info := info c; posX := posX c; posZ := posZ c;
     scale := (hoverScale, hoverScale, hoverScale); emissive := 0xffffff |}.

(** The raycasting half of [animate], one frame. *)
Definition animate (intersects : list nat) (s : state) : state :=
  match intersects with
  | first :: _ =>
      if decide (hoveredCube s = Some first) then s
      else
        let cs :=
          match hoveredCube s with
          | Some h => alter resetLook h (cubes s)
          | None => cubes s
          end in
        {| cubes := alter hoverLook first cs; hoveredCube := Some first |}
  | [] =>
      match hoveredCube s with
      | Some h =>
          {| cubes := alter resetLook h (cubes s); hoveredCube := None |}
      | None => s
      end
  end.

Definition newline : string := String (Ascii.ascii_of_nat 10) "".

(** [onClick]: nothing when no cube is hovered, else the text passed to
    [console.log] and the text passed to [alert]. *)
Definition onClick (s : state) : option (string * string) :=
  match hoveredCube s with
  | None => None
  | Some h =>
      match cubes s !! h with
      | None => None
      | Some c =>
          Some ("Clicked cube #" +:+ CubeRush.numberToString (id c) +:+ ": "
                +:+ info c,
                "You clicked cube #" +:+ CubeRush.numberToString (id c)
                +:+ newline +:+ info c)
      end
  end.

(** The frames the host can deliver: the raycaster reports cubes of the
    grid only. *)
Inductive reachable (scale0 : Q * Q * Q) (emissive0 : Z) : state -> Prop :=
| reach_init : reachable scale0 emissive0 (initial scale0 emissive0)
| reach_frame s intersects :
    reachable scale0 emissive0 s ->
    Forall (fun c => (c < length (cubes s))%nat) intersects ->
    reachable scale0 emissive0 (animate intersects s).

(** What [animate] never writes. *)
Definition fixedPart (c : cube) : Z * string * Z * Z :=
  (id c, info c, posX c, posZ c).

Definition lookOf (c : cube) : Q * Q * Q * Z := (scale c, emissive c).

(** The hover invariant: the hovered cube, if any, is a cube of the grid
    and wears the hover look; every other cube looks as it did when made
    or as [resetLook] leaves it. *)
Definition hoverInv (scale0 : Q * Q * Q) (emissive0 : Z) (s : state) : Prop :=
  (forall h, hoveredCube s = Some h ->
     exists c, cubes s !! h = Some c /\
       lookOf c = (hoverScale, hoverScale, hoverScale, 0xffffff%Z)) /\
  (forall k c, cubes s !! k = Some c -> hoveredCube s <> Some k ->
     lookOf c = (scale0, emissive0) \/
     lookOf c = ((1, 1, 1)%Q, 0x000000%Z)).

(** ** The grid of the hover script *)

Section NestedLoop.
Context {A : Type} (mk : nat -> nat -> Z -> A).

Let push (i j : nat) (st : Z * list A) : Z * list A :=
  ((fst st + 1)%Z, snd st ++ [mk i j (fst st)]).

Lemma inner_fold (i m a : nat) (c : Z) (l : list A) :
  foldl (fun st' j => push i j st') (c, l) (seq a m)
  = ((c + Z.of_nat m)%Z,
     l ++ map (fun j => mk i j (c + (Z.of_nat j - Z.of_nat a))) (seq a m)).
Proof.
  revert a c l. induction m as [|m IH]; intros a c l.
  - simpl. f_equal; [lia|now rewrite app_nil_r].
  - cbn [seq foldl]. unfold push at 2. cbn [fst snd].
    rewrite IH. f_equal; [lia|]. rewrite <- app_assoc. f_equal. cbn.
    f_equal; [f_equal; lia|].
    apply map_ext. intros j. f_equal. lia.
Qed.

Lemma nested_fold (n1 n2 : nat) :
  foldl (fun st i => foldl (fun st' j => push i j st') st (seq 0 n2))
        (1%Z, []) (seq 0 n1)
  = ((1 + Z.of_nat (n1 * n2))%Z,
     map (fun k => mk (k / n2) (k mod n2) (Z.of_nat k + 1))
         (seq 0 (n1 * n2))).
Proof.
  induction n1 as [|n IH]; [reflexivity|].
  rewrite seq_S, foldl_app, IH. cbn [foldl Nat.add].
  rewrite inner_fold. f_equal; [lia|].
  replace (S n * n2)%nat with (n * n2 + n2)%nat by lia.
  rewrite seq_app, map_app. f_equal. cbn [Nat.add].
  replace (seq (n * n2) n2) with (map (Nat.add (n * n2)) (seq 0 n2))
    by (change (map ?f ?l) with (f <$> l); rewrite fmap_add_seq;
        f_equal; lia).
  rewrite map_map. apply map_ext_in. intros j Hj. apply in_seq in Hj.
  assert (Hc : n2 <> 0%nat) by lia.
  replace ((n * n2 + j) / n2)%nat with n
    by (symmetry; rewrite Nat.add_comm, Nat.div_add by exact Hc;
        rewrite Nat.div_small by lia; reflexivity).
  replace ((n * n2 + j) mod n2)%nat with j
    by (symmetry; rewrite Nat.add_comm, Nat.Div0.mod_add;
        apply Nat.mod_small; lia).
  f_equal. lia.
Qed.
End NestedLoop.

Lemma foldl_pointwise {A B} (f f' : A -> B -> A) (l : list B) (a : A) :
  (forall a' x, f a' x = f' a' x) -> foldl f a l = foldl f' a l.
Proof.
  intros E. revert a. induction l as [|x l IH]; intros a; simpl;
    [reflexivity|]. now rewrite E, IH.
Qed.

(** The cube at array index [k] of a grid of side [n = 2 g + 1]. *)
Lemma createCubesFor_closed (g : Z) (scale0 : Q * Q * Q) (emissive0 : Z) :
  let n := Z.to_nat (2 * g + 1) in
  createCubesFor g scale0 emissive0
  = ((1 + Z.of_nat (n * n))%Z,
     map (fun k => newCube scale0 emissive0
                     (Z.of_nat (k / n) + - g) (Z.of_nat (k mod n) + - g)
                     (Z.of_nat k + 1))
         (seq 0 (n * n))).
Proof.
  intros n. unfold createCubesFor, seqZ. fold n.
  rewrite foldl_fmap.
  rewrite <- (nested_fold
    (fun i j c => newCube scale0 emissive0 (Z.of_nat i + - g) (Z.of_nat j + - g) c)
    n n).
  apply foldl_pointwise. intros st i. now rewrite foldl_fmap.
Qed.

(** X14: the grid of the hover script, for any [gridSize] [g].  The loops
    run from [-g] to [g] inclusive, so the grid has [(2 g + 1)^2] cubes,
    121 for the script's [gridSize = 5]; the cube for [x = i - g],
    [z = j - g] sits at index [i (2 g + 1) + j] with id one more than its
    index, the text "Cube at (x, z)" and the position [(4 x, 4 z)]. *)
Theorem hover_grid_layout (g : Z) (scale0 : Q * Q * Q) (emissive0 : Z) :
  let n := Z.to_nat (2 * g + 1) in
  length (snd (createCubesFor g scale0 emissive0)) = (n * n)%nat /\
  fst (createCubesFor g scale0 emissive0) = (1 + Z.of_nat (n * n))%Z /\
  (forall i j, (i < n)%nat -> (j < n)%nat ->
     snd (createCubesFor g scale0 emissive0) !! (i * n + j)%nat
     = Some (newCube scale0 emissive0 (Z.of_nat i - g) (Z.of_nat j - g)
               (Z.of_nat (i * n + j) + 1))) /\
  length (cubes (initial scale0 emissive0)) = 121%nat.
Proof.
  intros n. rewrite createCubesFor_closed. fold n. cbn [fst snd].
  split; [now rewrite length_map, length_seq|]. split; [reflexivity|]. split.
  - intros i j Hi Hj.
    assert (Hc : n <> 0%nat) by lia.
    assert (Hlt : (i * n + j < n * n)%nat) by nia.
    change (map ?f ?l) with (f <$> l). rewrite list_lookup_fmap.
    rewrite lookup_seq_lt by exact Hlt. cbn.
    replace ((i * n + j) / n)%nat with i
      by (symmetry; rewrite Nat.add_comm, Nat.div_add by exact Hc;
          rewrite Nat.div_small by lia; reflexivity).
    replace ((i * n + j) mod n)%nat with j
      by (symmetry; rewrite Nat.add_comm, Nat.Div0.mod_add;
          apply Nat.mod_small; lia).
    reflexivity.
  - unfold initial. cbn [cubes]. rewrite createCubesFor_closed. cbn [snd].
    now rewrite length_map, length_seq.
Qed.

Lemma hover_grid_size scale0 emissive0 :
  length (cubes (initial scale0 emissive0)) = 121%nat.
Proof.
  unfold initial. cbn [cubes]. rewrite createCubesFor_closed. cbn [snd].
  now rewrite length_map, length_seq.
Qed.

Lemma hover_grid_layout_witness :
  snd (createCubesFor gridSize (1, 1, 1)%Q 0) !! 60%nat
  = Some (newCube (1, 1, 1)%Q 0 0 0 61).
Proof.
  destruct (hover_grid_layout gridSize (1, 1, 1)%Q 0) as (_ & _ & Hat & _).
  exact (Hat 5%nat 5%nat ltac:(vm_compute; lia) ltac:(vm_compute; lia)).
Defined.

(** ** Hovering *)

Lemma fixedPart_alter (f : cube -> cube) (h : nat) (cs : list cube) :
  (forall c, fixedPart (f c) = fixedPart c) ->
  fixedPart <$> alter f h cs = fixedPart <$> cs.
Proof.
  intros Hf. apply list_eq. intros k. rewrite !list_lookup_fmap.
  destruct (decide (h = k)) as [->|Hne].
  - rewrite list_lookup_alter_eq. destruct (cs !! k); simpl; [|reflexivity].
    now rewrite Hf.
  - now rewrite list_lookup_alter_ne.
Qed.

Lemma animate_fixedPart intersects s :
  fixedPart <$> cubes (animate intersects s) = fixedPart <$> cubes s.
Proof.
  unfold animate. destruct intersects as [|first rest].
  - destruct (hoveredCube s); [|reflexivity]. cbn.
    now apply fixedPart_alter.
  - destruct (decide (hoveredCube s = Some first)); [reflexivity|]. cbn.
    rewrite fixedPart_alter by reflexivity.
    destruct (hoveredCube s); [|reflexivity]. now apply fixedPart_alter.
Qed.

Lemma animate_length intersects s :
  length (cubes (animate intersects s)) = length (cubes s).
Proof.
  pose proof (animate_fixedPart intersects s) as H.
  apply (f_equal length) in H. now rewrite !length_fmap in H.
Qed.

Lemma initial_lookup scale0 emissive0 (h : nat) :
  (h < 121)%nat ->
  cubes (initial scale0 emissive0) !! h
  = Some (newCube scale0 emissive0
            (Z.of_nat (h / 11) - 5) (Z.of_nat (h mod 11) - 5) (Z.of_nat h + 1)).
Proof.
  intros Hh. unfold initial. cbn [cubes].
  rewrite createCubesFor_closed. cbn [snd].
  change (Z.to_nat (2 * gridSize + 1)) with 11%nat.
  change (map ?f ?l) with (f <$> l). rewrite list_lookup_fmap.
  rewrite lookup_seq_lt by (simpl; lia). reflexivity.
Qed.

Lemma hoverInv_initial scale0 emissive0 :
  hoverInv scale0 emissive0 (initial scale0 emissive0).
Proof.
  split; [intros h Hh; discriminate Hh|].
  intros k c Hc _. left.
  assert (Hk : (k < 121)%nat).
  { apply lookup_lt_Some in Hc. now rewrite hover_grid_size in Hc. }
  rewrite (initial_lookup _ _ k Hk) in Hc. now injection Hc as <-.
Qed.

Lemma hoverInv_animate scale0 emissive0 intersects s :
  Forall (fun c => (c < length (cubes s))%nat) intersects ->
  hoverInv scale0 emissive0 s ->
  hoverInv scale0 emissive0 (animate intersects s).
Proof.
  intros Hvalid Hinv. pose proof Hinv as [Hhov Hrest]. unfold animate.
  destruct intersects as [|first rest].
  - destruct (hoveredCube s) as [h|] eqn:Hh; [|exact Hinv].
    split; [intros h' Hh'; discriminate Hh'|].
    cbn. intros k c Hc _. destruct (decide (h = k)) as [->|Hne].
    + rewrite list_lookup_alter_eq in Hc. right.
      destruct (cubes s !! k); [|discriminate]. now injection Hc as <-.
    + rewrite list_lookup_alter_ne in Hc by exact Hne.
      apply (Hrest k c Hc). congruence.
  - apply Forall_cons in Hvalid as [Hfirst _].
    destruct (decide (hoveredCube s = Some first)) as [|Hne]; [exact Hinv|].
    set (cs := match hoveredCube s with
               | Some h => alter resetLook h (cubes s)
               | None => cubes s
               end).
    assert (Hlen : length cs = length (cubes s)).
    { unfold cs. destruct (hoveredCube s); [apply length_alter|reflexivity]. }
    assert (Hcs : forall k c, cs !! k = Some c -> k <> first ->
              lookOf c = (scale0, emissive0) \/
              lookOf c = ((1, 1, 1)%Q, 0x000000%Z)).
    { intros k c Hc Hk. unfold cs in Hc.
      destruct (hoveredCube s) as [h|] eqn:Hh.
      - destruct (decide (h = k)) as [->|Hhk].
        + rewrite list_lookup_alter_eq in Hc. right.
          destruct (cubes s !! k); [|discriminate]. now injection Hc as <-.
        + rewrite list_lookup_alter_ne in Hc by exact Hhk.
          apply (Hrest k c Hc). congruence.
      - apply (Hrest k c Hc). discriminate. }
    split; cbn.
    + intros h' Hh'. injection Hh' as <-.
      destruct (lookup_lt_is_Some_2 cs first) as [c Hc]; [lia|].
      exists (hoverLook c). split; [|reflexivity].
      now rewrite list_lookup_alter_eq, Hc.
    + intros k c Hc Hk. assert (Hkf : k <> first) by congruence.
      rewrite list_lookup_alter_ne in Hc by congruence.
      now apply (Hcs k c Hc).
Qed.

Lemma reachable_hoverInv scale0 emissive0 s :
  reachable scale0 emissive0 s -> hoverInv scale0 emissive0 s.
Proof.
  induction 1 as [|s i _ IH Hv];
    [apply hoverInv_initial|now apply hoverInv_animate].
Qed.

Lemma reachable_fixedPart scale0 emissive0 s :
  reachable scale0 emissive0 s ->
  fixedPart <$> cubes s = fixedPart <$> cubes (initial scale0 emissive0).
Proof.
  induction 1 as [|s i _ IH _]; [reflexivity|now rewrite animate_fixedPart].
Qed.

(** X15: exactly the hovered cube is lit.  In every state the frames can
    reach there are still 121 cubes with the ids, texts and places they
    were made with; the hovered cube, if any, is one of them and has scale
    1.2 and white emissive; every other cube has the look it was made with
    or scale 1 and black emissive.  So when new meshes are not made
    white-emissive, a cube is white-emissive exactly when it is the hovered
    one, and after a frame in which the ray meets no cube none is. *)
Theorem hover_highlights_one (scale0 : Q * Q * Q) (emissive0 : Z) (s : state) :
  reachable scale0 emissive0 s ->
  length (cubes s) = 121%nat /\
  fixedPart <$> cubes s = fixedPart <$> cubes (initial scale0 emissive0) /\
  hoverInv scale0 emissive0 s /\
  (emissive0 <> 0xffffff%Z ->
   (forall k c, cubes s !! k = Some c ->
      emissive c = 0xffffff%Z <-> hoveredCube s = Some k) /\
   (forall c, c ∈ cubes (animate [] s) -> emissive c <> 0xffffff%Z)).
Proof.
  intros Hr.
  pose proof (reachable_fixedPart _ _ _ Hr) as Hfix.
  pose proof (reachable_hoverInv _ _ _ Hr) as Hinv.
  assert (Hwhite : forall t, hoverInv scale0 emissive0 t ->
            emissive0 <> 0xffffff%Z ->
            forall k c, cubes t !! k = Some c ->
              emissive c = 0xffffff%Z <-> hoveredCube t = Some k).
  { intros t [Hhov Hrest] He k c Hc. split.
    - intros Hw. destruct (decide (hoveredCube t = Some k)) as [|Hn];
        [assumption|].
      destruct (Hrest k c Hc Hn) as [E|E]; unfold lookOf in E;
        injection E as _ E; congruence.
    - intros Hk. destruct (Hhov k Hk) as (c' & Hc' & E).
      rewrite Hc in Hc'. injection Hc' as <-. unfold lookOf in E.
      now injection E. }
  split; [|split; [exact Hfix|split; [exact Hinv|]]].
  - apply (f_equal length) in Hfix. rewrite !length_fmap in Hfix.
    rewrite Hfix. apply (hover_grid_size scale0 emissive0).
  - intros He. split; [now apply Hwhite|].
    intros c Hc. apply list_elem_of_lookup in Hc as [k Hk].
    assert (Hinv' : hoverInv scale0 emissive0 (animate [] s))
      by (apply hoverInv_animate; [constructor|exact Hinv]).
    intros Hw. apply (Hwhite _ Hinv' He k c Hk) in Hw.
    unfold animate in Hw. destruct (hoveredCube s) eqn:E; cbn in Hw;
      congruence.
Qed.

Lemma hover_highlights_one_witness :
  let s := animate [60%nat; 61%nat] (initial (1, 1, 1)%Q 0) in
  reachable (1, 1, 1)%Q 0 s /\ length (cubes s) = 121%nat.
Proof.
  intros s.
  assert (R : reachable (1, 1, 1)%Q 0 s).
  { apply reach_frame; [apply reach_init|].
    repeat constructor; vm_compute; lia. }
  split; [exact R|]. exact (proj1 (hover_highlights_one _ _ s R)).
Defined.

(** X16: a frame is idempotent.  Rendering again with the same raycast
    result changes nothing, in any state: the hover bookkeeping reacts
    only to a change of the nearest cube. *)
Theorem animate_idempotent (intersects : list nat) (s : state) :
  animate intersects (animate intersects s) = animate intersects s.
Proof.
  unfold animate. destruct intersects as [|first rest].
  - destruct (hoveredCube s) as [h|] eqn:Hh; cbn; [reflexivity|].
    now rewrite Hh.
  - destruct (decide (hoveredCube s = Some first)) as [Hf|Hf]; cbn.
    + now rewrite decide_True by exact Hf.
    + now rewrite decide_True by reflexivity.
Qed.

(** ** Clicking the hovered cube *)

Lemma animate_hovered intersects s :
  hoveredCube (animate intersects s) = head intersects.
Proof.
  unfold animate. destruct intersects as [|first rest]; cbn.
  - now destruct (hoveredCube s) eqn:Hh.
  - now destruct (decide (hoveredCube s = Some first)).
Qed.

(** X17: what a click reports.  After a frame the hovered cube is the
    nearest cube the ray met, or none when it met none.  In a reachable
    state a click does nothing exactly when no cube is hovered; otherwise,
    with the cube at array index [h] hovered, it logs and alerts the id
    [h + 1] and the text "Cube at (x, z)" for the grid coordinates
    [x = h / 11 - 5], [z = h mod 11 - 5] the cube was made with. *)
Theorem click_reports_hovered (scale0 : Q * Q * Q) (emissive0 : Z) (s : state) :
  reachable scale0 emissive0 s ->
  (forall intersects, hoveredCube (animate intersects s) = head intersects) /\
  (onClick s = None <-> hoveredCube s = None) /\
  (forall h, hoveredCube s = Some h ->
     (h < 121)%nat /\
     let text := "Cube at ("
                 +:+ CubeRush.numberToString (Z.of_nat (h / 11) - 5) +:+ ", "
                 +:+ CubeRush.numberToString (Z.of_nat (h mod 11) - 5) +:+ ")" in
     onClick s
     = Some ("Clicked cube #" +:+ CubeRush.numberToString (Z.of_nat h + 1)
             +:+ ": " +:+ text,
             "You clicked cube #" +:+ CubeRush.numberToString (Z.of_nat h + 1)
             +:+ newline +:+ text)).
Proof.
  intros Hr.
  pose proof (reachable_fixedPart _ _ _ Hr) as Hfix.
  destruct (reachable_hoverInv _ _ _ Hr) as [Hhov _].
  assert (Hlen : length (cubes s) = 121%nat).
  { apply (f_equal length) in Hfix. rewrite !length_fmap in Hfix.
    rewrite Hfix. apply hover_grid_size. }
  assert (Hat : forall h, hoveredCube s = Some h ->
            (h < 121)%nat /\
            exists c, cubes s !! h = Some c /\
              id c = (Z.of_nat h + 1)%Z /\
              info c = "Cube at ("
                       +:+ CubeRush.numberToString (Z.of_nat (h / 11) - 5) +:+ ", "
                       +:+ CubeRush.numberToString (Z.of_nat (h mod 11) - 5)
                       +:+ ")").
  { intros h Hh. destruct (Hhov h Hh) as (c & Hc & _).
    assert (Hlt : (h < 121)%nat)
      by (rewrite <- Hlen; now apply lookup_lt_Some in Hc).
    split; [exact Hlt|]. exists c. split; [exact Hc|].
    apply (f_equal (fun l => l !! h)) in Hfix.
    rewrite !list_lookup_fmap, Hc, (initial_lookup _ _ h Hlt) in Hfix.
    cbn in Hfix. injection Hfix as Hid Hinfo _ _. now split. }
  split; [intros i; apply animate_hovered|]. split.
  - unfold onClick. split.
    + destruct (hoveredCube s) as [h|] eqn:Hh; [|reflexivity].
      destruct (Hat h eq_refl) as (_ & c & Hc & _). now rewrite Hc.
    + now intros ->.
  - intros h Hh. destruct (Hat h Hh) as (Hlt & c & Hc & Hid & Hinfo).
    split; [exact Hlt|]. cbv zeta. unfold onClick.
    now rewrite Hh, Hc, Hid, Hinfo.
Qed.

Lemma click_reports_hovered_witness :
  let s := animate [60%nat] (initial (1, 1, 1)%Q 0) in
  reachable (1, 1, 1)%Q 0 s /\
  hoveredCube (animate [] s) = None /\
  snd <$> onClick s
  = Some ("You clicked cube #61" +:+ newline +:+ "Cube at (0, 0)").
Proof.
  intros s.
  assert (R : reachable (1, 1, 1)%Q 0 s).
  { apply reach_frame; [apply reach_init|].
    repeat constructor; vm_compute; lia. }
  destruct (click_reports_hovered _ _ s R) as (Hhead & _ & Hclick).
  split; [exact R|]. split; [exact (Hhead [])|].
  destruct (Hclick 60%nat eq_refl) as (_ & ->). reflexivity.
Defined.

End HoverGrid.
